(** * kcheck: the test-case registry and the assertion reporting of ktf

    A shallow embedding of [kernel/kcheck.c].  The kernel objects the file
    works on are kept as the C code has them:

    - [struct ktf_case] and [struct fun_hook] objects live in two typed heaps
      indexed by their address; [kmalloc] picks a fresh address or fails,
      [kfree] removes the object;
    - the global map [test_cases] sends a name to the address of its case;
    - the intrusive lists [ktf_case::fun_list] and [ktf_handle::test_list]
      are lists of hook addresses, first element = [head->next], so one hook
      is shared by the two lists it is threaded on;
    - [tc_lock] is a boolean, [assert_cnt] a 32-bit unsigned counter;
    - an [sk_buff] is the sequence of netlink attributes appended so far.

    The diagnostics ([printk], [tlog], [DM]) write to the kernel log only and
    are left out. *)

From Stdlib Require Import Ascii String.
From stdpp Require Import gmap strings list fin_maps numbers.

#[local] Open Scope Z_scope.

(** ** Constants and plain data *)

Abbreviation addr := positive (only parsing).
Abbreviation khandle := nat (only parsing).

(** [#define MAX_PRINTF 4096] *)
Definition MAX_PRINTF : nat := 4096%nat.

(** [errno] values of the kernel. *)
Definition EBUSY : Z := 16.
Definition EEXIST : Z := 17.

(** Conversion to [u32]. *)
Definition u32 (z : Z) : Z := z mod 2 ^ 32.

(** [struct __test_desc]: the fields [tclass], [name], [file] and [fun]. *)
Record __test_desc := mk_test_desc {
  td_tclass : string;
  td_name : string;
  td_file : string;
  td_fun : addr
}.

(** [struct fun_hook]: the fields [name], [tclass], [fun], [start], [end] and
    [handle]; the link fields [flist] and [hlist] are the hook's membership
    in a [fun_list] and in a [test_list]. *)
Record fun_hook := mk_fun_hook {
  fh_name : string;
  fh_tclass : string;
  fh_fun : addr;
  fh_start : Z;
  fh_end : Z;
  fh_handle : khandle
}.

(** [struct ktf_case]: the name held by its [kmap] element and [fun_list]. *)
Record ktf_case := mk_ktf_case {
  kmap_name : string;
  fun_list : list addr
}.

(** The attribute types of the wire protocol used by this file. *)
Inductive attr_type := KTF_A_STAT | KTF_A_FILE | KTF_A_NUM | KTF_A_STR.

Inductive nlattr :=
| NlaU32 (t : attr_type) (v : Z)
| NlaString (t : attr_type) (s : string).

(** The attributes put into a message so far, oldest first. *)
Abbreviation sk_buff := (list nlattr) (only parsing).

(** ** The state of the module *)

Record kstate := mk_kstate {
  cases : gmap addr ktf_case;          (* live [struct ktf_case] objects *)
  hooks : gmap addr fun_hook;          (* live [struct fun_hook] objects *)
  test_cases : gmap string addr;       (* [DEFINE_KTF_MAP(test_cases)] *)
  test_list : gmap khandle (list addr); (* [ktf_handle::test_list] *)
  tc_lock : bool;                      (* [DEFINE_MUTEX(tc_lock)], true = held *)
  assert_cnt : Z                       (* [u32 assert_cnt] *)
}.

Definition set_cases (f : gmap addr ktf_case -> gmap addr ktf_case) (s : kstate) :=
  mk_kstate (f (cases s)) (hooks s) (test_cases s) (test_list s) (tc_lock s) (assert_cnt s).
Definition set_hooks (f : gmap addr fun_hook -> gmap addr fun_hook) (s : kstate) :=
  mk_kstate (cases s) (f (hooks s)) (test_cases s) (test_list s) (tc_lock s) (assert_cnt s).
Definition set_test_cases (f : gmap string addr -> gmap string addr) (s : kstate) :=
  mk_kstate (cases s) (hooks s) (f (test_cases s)) (test_list s) (tc_lock s) (assert_cnt s).
Definition set_test_list (f : gmap khandle (list addr) -> gmap khandle (list addr)) (s : kstate) :=
  mk_kstate (cases s) (hooks s) (test_cases s) (f (test_list s)) (tc_lock s) (assert_cnt s).
Definition set_tc_lock (b : bool) (s : kstate) :=
  mk_kstate (cases s) (hooks s) (test_cases s) (test_list s) b (assert_cnt s).
Definition set_assert_cnt (z : Z) (s : kstate) :=
  mk_kstate (cases s) (hooks s) (test_cases s) (test_list s) (tc_lock s) z.

(** The module as loaded: nothing registered, lock free, counter zero. *)
Definition kstate_init : kstate := mk_kstate ∅ ∅ ∅ ∅ false 0.

(** The list headed by [th->test_list]. *)
Definition handle_list (s : kstate) (th : khandle) : list addr :=
  default [] (test_list s !! th).

(** ** Outcomes of a call

    A call returns a value and a new state, or it accesses memory it must
    not ([Crash]), or it waits for ever on a mutex that nobody releases
    ([Hang]). *)

Inductive fault := NullDeref | Dangling | OutOfBounds.

Inductive outcome (A : Type) :=
| Ret (a : A) (s : kstate)
| Crash (f : fault)
| Hang.
Arguments Ret {A} a s.
Arguments Crash {A} f.
Arguments Hang {A}.

Definition K (A : Type) : Type := kstate -> outcome A.

#[global] Instance K_ret : MRet K := fun A a s => Ret a s.
#[global] Instance K_bind : MBind K := fun A B f m s =>
  match m s with
  | Ret a s' => f a s'
  | Crash e => Crash e
  | Hang => Hang
  end.

Definition crash {A} (e : fault) : K A := fun _ => Crash e.
Definition get_state : K kstate := fun s => Ret s s.
Definition modify (f : kstate -> kstate) : K unit := fun s => Ret tt (f s).

(** ** Kernel primitives *)

(** [mutex_lock(&tc_lock)]: the caller is the only thread of the model, so a
    lock that is held stays held. *)
Definition mutex_lock : K unit := fun s =>
  if tc_lock s then Hang else Ret tt (set_tc_lock true s).

Definition mutex_unlock : K unit := modify (set_tc_lock false).

(** The choices the kernel makes during one registration call: whether each
    [kmalloc] succeeds and what the two map helpers return. *)
Record kchoice := mk_kchoice {
  kmalloc_fc : bool;      (* [kmalloc(sizeof(struct fun_hook))] succeeds *)
  kmalloc_tc : bool;      (* [kmalloc] of the case succeeds *)
  elem_init_ret : Z;      (* result of [ktf_map_elem_init] *)
  map_insert_ret : Z      (* result of [ktf_map_insert] on a new name *)
}.

(** What [kmalloc] leaves in a new object before the code fills it in. *)
Definition blank_case : ktf_case := mk_ktf_case EmptyString [].
Definition blank_hook : fun_hook :=
  mk_fun_hook EmptyString EmptyString 1%positive 0 0 0%nat.

Definition kmalloc_case (ok : bool) : K (option addr) := fun s =>
  if ok then
    let a := fresh (dom (cases s)) in
    Ret (Some a) (set_cases <[a := blank_case]> s)
  else Ret None s.

Definition kmalloc_hook (ok : bool) : K (option addr) := fun s =>
  if ok then
    let a := fresh (dom (hooks s)) in
    Ret (Some a) (set_hooks <[a := blank_hook]> s)
  else Ret None s.

(** [kfree(p)]; [kfree(NULL)] does nothing. *)
Definition kfree_case (p : option addr) : K unit :=
  match p with
  | None => mret tt
  | Some a => modify (set_cases (delete a))
  end.

Definition kfree_hook (p : option addr) : K unit :=
  match p with
  | None => mret tt
  | Some a => modify (set_hooks (delete a))
  end.

(** Read and write of a case through its address. *)
Definition load_case (a : addr) : K ktf_case := fun s =>
  match cases s !! a with
  | Some c => Ret c s
  | None => Crash Dangling
  end.

Definition store_case (a : addr) (c : ktf_case) : K unit :=
  modify (set_cases <[a := c]>).

Definition load_hook (a : addr) : K fun_hook := fun s =>
  match hooks s !! a with
  | Some h => Ret h s
  | None => Crash Dangling
  end.

(** ** The name map

    [ktf_map.c] and [ktf_map.h] are not among the sources of this file. *)

(** Modelled from the spec: [ktf_map_elem_init] is missing; the NameMap is
    "keyed by string name", so the helper stores the name in the element and
    reports whether it could. *)
Definition ktf_map_elem_init (r : Z) (tc : addr) (name : string) : K Z :=
  c ← load_case tc;
  if decide (r = 0) then
    store_case tc (mk_ktf_case name (fun_list c));; mret 0
  else mret r.

(** [ktf_map_find_entry(&test_cases, name, struct ktf_case, kmap)] *)
Definition ktf_map_find_entry (name : string) : K (option addr) := fun s =>
  Ret (test_cases s !! name) s.

(** Modelled from the spec: [ktf_map_insert] is missing; the NameMap
    "supports insert" under a unique "string key", and insertion may fail.
    The element is [&tc->kmap]: the helper reads the name out of it, so the
    case must be a live object. *)
Definition ktf_map_insert (r : Z) (tc : option addr) : K Z :=
  match tc with
  | None => crash NullDeref
  | Some a =>
    c ← load_case a;
    s ← get_state;
    match test_cases s !! kmap_name c with
    | Some _ => mret (- EEXIST)
    | None =>
      if decide (r = 0) then
        modify (set_test_cases <[kmap_name c := a]>);; mret 0
      else mret r
    end
  end.

(** [ktf_map_size(&test_cases)] *)
Definition ktf_map_size (s : kstate) : nat := size (test_cases s).

(** Modelled from the spec: the macro [ktf_map_delete_all] is missing; it is
    the "bulk teardown" of the NameMap, by which shutdown "deletes all
    TestCases": every entry leaves the map and its case is freed. *)
Definition ktf_map_delete_all : K unit :=
  modify (fun s =>
    set_test_cases (fun _ => ∅)
      (set_cases (fun cs => foldr (fun e m => delete e.2 m) cs
                              (map_to_list (test_cases s))) s)).

(** ** [kcheck.c] *)

Definition ktf_case_count (s : kstate) : nat := ktf_map_size s.

Definition ktf_case_create (k : kchoice) (name : string) : K (option addr) :=
  tc ← kmalloc_case (kmalloc_tc k);
  match tc with
  | None => mret None
  | Some a =>
    (* INIT_LIST_HEAD(&tc->fun_list) *)
    c ← load_case a;
    store_case a (mk_ktf_case (kmap_name c) []);;
    r ← ktf_map_elem_init (elem_init_ret k) a name;
    if decide (r = 0) then mret (Some a)
    else kfree_case (Some a);; mret None
  end.

Definition ktf_case_find (name : string) : K (option addr) :=
  ktf_map_find_entry name.

Definition ktf_case_find_create (k : kchoice) (name : string) : K (option addr) :=
  tc ← ktf_case_find name;
  match tc with
  | Some a => mret (Some a)
  | None =>
    tc ← ktf_case_create k name;
    r ← ktf_map_insert (map_insert_ret k) tc;
    if decide (r = 0) then mret tc
    else kfree_case tc;; mret None
  end.

(** ** The two intrusive lists *)

(** [list_add(&fc->flist, &tc->fun_list)]: the new entry goes right after the
    head. *)
Definition list_add_flist (fc tc : addr) : K unit :=
  c ← load_case tc;
  store_case tc (mk_ktf_case (kmap_name c) (fc :: fun_list c)).

(** [list_add(&fc->hlist, &th->test_list)] *)
Definition list_add_hlist (fc : addr) (th : khandle) : K unit :=
  modify (fun s => set_test_list <[th := fc :: handle_list s th]> s).

(** A list without the entry [a]. *)
Definition unlink (a : addr) (l : list addr) : list addr :=
  filter (fun x => x ≠ a) l.

Definition unlink_case (a : addr) (c : ktf_case) : ktf_case :=
  mk_ktf_case (kmap_name c) (unlink a (fun_list c)).

(** [list_del(&fh->flist)]: the neighbours of the entry are joined, whichever
    [fun_list] they are on; the entry is read, so the hook must be live. *)
Definition list_del_flist (fh : addr) : K unit :=
  _ ← load_hook fh;
  modify (set_cases (fmap (unlink_case fh))).

(** [list_del(&fh->hlist)] *)
Definition list_del_hlist (fh : addr) : K unit :=
  _ ← load_hook fh;
  modify (set_test_list (fmap (unlink fh))).

(** ** Registration and teardown *)

(** The six assignments [fc->name = td.name], [fc->tclass = td.tclass],
    [fc->fun = td.fun], [fc->start = start], [fc->end = end] and
    [fc->handle = th]. *)
Definition filled_hook (td : __test_desc) (th : khandle) (start end_ : Z)
    : fun_hook :=
  mk_fun_hook (td_name td) (td_tclass td) (td_fun td) start end_ th.

Definition _tcase_add_test (k : kchoice) (td : __test_desc) (th : khandle)
    (_signal allowed_exit_value start end_ : Z) : K unit :=
  fc ← kmalloc_hook (kmalloc_fc k);
  match fc with
  | None => mret tt
  | Some f =>
    mutex_lock;;
    tc ← ktf_case_find_create k (td_tclass td);
    match tc with
    | None =>
      kfree_hook (Some f);;
      mutex_unlock
    | Some c =>
      modify (set_hooks <[f := filled_hook td th start end_]>);;
      list_add_flist f c;;
      list_add_hlist f th;;
      mutex_unlock
    end
  end.

(** The body of [list_for_each_safe] in [_tcase_cleanup], run on the entries
    of [th->test_list]; the successor is saved before the body frees the
    entry. *)
Fixpoint tcase_cleanup_loop (l : list addr) : K unit :=
  match l with
  | [] => mret tt
  | fh :: n =>
    list_del_flist fh;;
    list_del_hlist fh;;
    kfree_hook (Some fh);;
    tcase_cleanup_loop n
  end.

Definition _tcase_cleanup (th : khandle) : K unit :=
  mutex_lock;;
  s ← get_state;
  tcase_cleanup_loop (handle_list s th);;
  mutex_unlock.

(** The two nested loops of [ktf_cleanup]: [true] when the body is entered,
    that is when some case has a first hook; the body reads [fh->name] for
    its warning and returns. *)
Fixpoint ktf_cleanup_scan (l : list (string * addr)) : K bool :=
  match l with
  | [] => mret false
  | e :: rest =>
    c ← load_case e.2;
    match fun_list c with
    | fh :: _ => _ ← load_hook fh; mret true
    | [] => ktf_cleanup_scan rest
    end
  end.

Definition ktf_cleanup : K Z :=
  mutex_lock;;
  s ← get_state;
  busy ← ktf_cleanup_scan (map_to_list (test_cases s));
  if busy : bool then mret (- EBUSY)
  else
    ktf_map_delete_all;;
    mutex_unlock;;
    mret 0.

(** ** Reporting *)

Definition NUL : ascii := Ascii.zero.

(** [nla_put_u32] and [nla_put_string] append one attribute; the transport
    is taken to have room for it. *)
Definition nla_put_u32 (skb : sk_buff) (t : attr_type) (v : Z) : sk_buff :=
  skb ++ [NlaU32 t (u32 v)].

Definition nla_put_string (skb : sk_buff) (t : attr_type) (str : list ascii) : sk_buff :=
  skb ++ [NlaString t (string_of_list_ascii str)].

(** The characters of a text before its first NUL. *)
Fixpoint until_nul (l : list ascii) : list ascii :=
  match l with
  | [] => []
  | c :: r => if decide (c = NUL) then [] else c :: until_nul r
  end.

(** The C string that starts at the beginning of the object [buf]: [None]
    when no NUL is found inside the object. *)
Fixpoint c_str (buf : list ascii) : option (list ascii) :=
  match buf with
  | [] => None
  | c :: r => if decide (c = NUL) then Some [] else cons c <$> c_str r
  end.

(** [kmalloc(n, GFP_KERNEL)] for a byte buffer: [None] is NULL, otherwise an
    object of [n] bytes holding whatever was there. *)
Definition kmalloc_buf (n : nat) (found : option (list ascii)) : option (list ascii) :=
  resize n NUL <$> found.

(** [vsnprintf(buf, size, fmt, ap)] of the kernel, where [text] is what the
    format expands to: at most [size - 1] characters are written, then a
    NUL, and the length of the whole text is returned. *)
Definition vsnprintf (buf : option (list ascii)) (size : nat) (text : list ascii)
    : K (list ascii * Z) :=
  match buf with
  | None => crash NullDeref
  | Some b =>
    match size with
    | O => mret (b, Z.of_nat (length text))
    | S m =>
      let n := (length text `min` m)%nat in
      if decide (n < length b)%nat then
        mret (take n text ++ NUL :: drop (S n) b, Z.of_nat (length text))
      else crash OutOfBounds
    end
  end.

(** [buf[i] = c] on an object of [length buf] bytes. *)
Definition store_byte (buf : list ascii) (i : Z) (c : ascii) : K (list ascii) :=
  if decide (0 ≤ i < Z.of_nat (length buf)) then mret (<[Z.to_nat i := c]> buf)
  else crash OutOfBounds.

(** Reading the string held by a buffer, as [nla_put_string] and [tlog] do. *)
Definition load_str (buf : list ascii) : K (list ascii) :=
  match c_str buf with
  | Some str => mret str
  | None => crash OutOfBounds
  end.

Definition flush_assert_cnt (skb : sk_buff) : K sk_buff :=
  s ← get_state;
  if decide (assert_cnt s ≠ 0) then
    modify (set_assert_cnt 0);;
    mret (nla_put_u32 skb KTF_A_STAT (assert_cnt s))
  else mret skb.

(** [_fail_unless(skb, result, file, line, fmt, ...)]: [text] is the
    expansion of [fmt] with its arguments and [found] the outcome of the
    [kmalloc] of the message buffer.  The value is the [long] returned and
    the message buffer [skb] as the call leaves it. *)
Definition _fail_unless (found : option (list ascii)) (skb : sk_buff)
    (result : Z) (file : list ascii) (line : Z) (text : list ascii)
    : K (Z * sk_buff) :=
  if decide (result ≠ 0) then
    modify (fun s => set_assert_cnt (u32 (assert_cnt s + 1)) s);;
    mret (result, skb)
  else
    skb ← flush_assert_cnt skb;
    let skb := nla_put_u32 skb KTF_A_STAT result in
    let buf := kmalloc_buf MAX_PRINTF found in
    let skb := nla_put_string skb KTF_A_FILE file in
    let skb := nla_put_u32 skb KTF_A_NUM line in
    r ← vsnprintf buf (MAX_PRINTF - 1) text;
    buf ← store_byte r.1 r.2 NUL;
    str ← load_str buf;
    let skb := nla_put_string skb KTF_A_STR str in
    (* kfree(buf) *)
    mret (result, skb).

(** One call of the report primitive, and a run of calls on one message. *)
Record report_call := mk_report_call {
  rc_found : option (list ascii);
  rc_result : Z;
  rc_file : list ascii;
  rc_line : Z;
  rc_text : list ascii
}.

Definition report (skb : sk_buff) (c : report_call) : K (Z * sk_buff) :=
  _fail_unless (rc_found c) skb (rc_result c) (rc_file c) (rc_line c) (rc_text c).

Fixpoint run_reports (calls : list report_call) (skb : sk_buff) : K sk_buff :=
  match calls with
  | [] => mret skb
  | c :: rest =>
    r ← report skb c;
    run_reports rest r.2
  end.

(** ** What a report is expected to put on the wire *)

(** The running-pass-count attribute of a flush of [n] passes. *)
Definition flushed_count (n : Z) : list nlattr :=
  if decide (n = 0) then [] else [NlaU32 KTF_A_STAT n].

(** The message text a failure record carries: cut to [MAX_PRINTF - 2]
    characters, as a C string. *)
Definition bounded_text (text : list ascii) : list ascii :=
  until_nul (take (MAX_PRINTF - 2) text).

(** The failure record of a failing call: result code, file, line, text. *)
Definition failure_record (c : report_call) : list nlattr :=
  [NlaU32 KTF_A_STAT 0;
   NlaString KTF_A_FILE (string_of_list_ascii (rc_file c));
   NlaU32 KTF_A_NUM (u32 (rc_line c));
   NlaString KTF_A_STR (string_of_list_ascii (bounded_text (rc_text c)))].

(** ** Well-formed states and what an iteration sees *)

(** The map and the live cases are the same cases, each under its name.
    A hook on a [fun_list] is live and on the [test_list] of its handle; a
    hook on a [test_list] is live, points back to that handle and is on the
    [fun_list] of a case.  No list holds a hook twice and no hook is on two
    [fun_list]s: this is what the link fields of one [struct fun_hook]
    allow, and what makes [list_del] the removal from one list. *)
Record wf (s : kstate) : Prop := mk_wf {
  wf_map : ∀ n a, test_cases s !! n = Some a → is_Some (cases s !! a);
  wf_name : ∀ n a c,
    test_cases s !! n = Some a → cases s !! a = Some c → kmap_name c = n;
  wf_reg : ∀ a c, cases s !! a = Some c → test_cases s !! kmap_name c = Some a;
  wf_flist : ∀ a c f, cases s !! a = Some c → f ∈ fun_list c →
    ∃ h, hooks s !! f = Some h ∧ f ∈ handle_list s (fh_handle h);
  wf_hlist : ∀ th f, f ∈ handle_list s th →
    ∃ h, hooks s !! f = Some h ∧ fh_handle h = th;
  wf_both : ∀ th f, f ∈ handle_list s th →
    ∃ a c, cases s !! a = Some c ∧ f ∈ fun_list c;
  wf_nodup : ∀ th, NoDup (handle_list s th);
  wf_fnodup : ∀ a c, cases s !! a = Some c → NoDup (fun_list c);
  wf_fone : ∀ a1 c1 a2 c2 f,
    cases s !! a1 = Some c1 → cases s !! a2 = Some c2 →
    f ∈ fun_list c1 → f ∈ fun_list c2 → a1 = a2
}.

(** The hooks that [list_for_each(pos, &tc->fun_list)] visits for the case
    registered under [name], in the order of the visit. *)
Definition case_iteration (s : kstate) (name : string) : list fun_hook :=
  match test_cases s !! name with
  | Some a =>
    match cases s !! a with
    | Some c => omap (λ f, hooks s !! f) (fun_list c)
    | None => []
    end
  | None => []
  end.

(** A list without the entries found in [l]. *)
Definition without (l xs : list addr) : list addr :=
  filter (λ x, x ∉ l) xs.

Definition without_case (l : list addr) (c : ktf_case) : ktf_case :=
  mk_ktf_case (kmap_name c) (without l (fun_list c)).

(** The state once the hook at [f], holding [h], is live and at the head of
    the [fun_list] of the case at [a] and of the [test_list] of [th]. *)
Definition linked (f : addr) (h : fun_hook) (a : addr) (c : ktf_case)
    (th : khandle) (s : kstate) : kstate :=
  set_test_list <[th := f :: handle_list s th]>
    (set_cases <[a := mk_ktf_case (kmap_name c) (f :: fun_list c)]>
       (set_hooks <[f := h]> s)).

(** The state once a new, empty case named [name] is registered at [a]. *)
Definition with_case (name : string) (a : addr) (s : kstate) : kstate :=
  set_test_cases <[name := a]> (set_cases <[a := mk_ktf_case name []]> s).

(** ** Registration calls *)

(** The arguments of one call of [_tcase_add_test], with the choices the
    kernel makes during it. *)
Record registration := mk_registration {
  reg_choice : kchoice;
  reg_td : __test_desc;
  reg_th : khandle;
  reg_signal : Z;
  reg_exit : Z;
  reg_start : Z;
  reg_end : Z
}.

Definition register (r : registration) : K unit :=
  _tcase_add_test (reg_choice r) (reg_td r) (reg_th r)
    (reg_signal r) (reg_exit r) (reg_start r) (reg_end r).

(** The hook that the call fills in. *)
Definition hook_of (r : registration) : fun_hook :=
  filled_hook (reg_td r) (reg_th r) (reg_start r) (reg_end r).

(** The call gets its hook, and its case if one has to be made. *)
Definition can_register (s : kstate) (r : registration) : Prop :=
  kmalloc_fc (reg_choice r) = true ∧
  (test_cases s !! td_tclass (reg_td r) = None →
   kmalloc_tc (reg_choice r) = true ∧ elem_init_ret (reg_choice r) = 0 ∧
   map_insert_ret (reg_choice r) = 0).

Fixpoint register_all (rs : list registration) : K unit :=
  match rs with
  | [] => mret tt
  | r :: rest => register r;; register_all rest
  end.

(** Every allocation and every map helper of the call succeeds. *)
Definition unhindered (r : registration) : Prop :=
  kmalloc_fc (reg_choice r) = true ∧ kmalloc_tc (reg_choice r) = true ∧
  elem_init_ret (reg_choice r) = 0 ∧ map_insert_ret (reg_choice r) = 0.

(** ** Shutdown *)

(** Some registered case has a hook on its list. *)
Definition stranded (s : kstate) : Prop :=
  ∃ n a c, test_cases s !! n = Some a ∧ cases s !! a = Some c ∧ fun_list c ≠ [].

(** The list of every registered case is empty. *)
Definition all_empty (s : kstate) : Prop :=
  ∀ n a c, test_cases s !! n = Some a → cases s !! a = Some c → fun_list c = [].

(** ** The states the module goes through

    From the module as loaded, by the calls that return. *)
Inductive reachable : kstate → Prop :=
| reach_init : reachable kstate_init
| reach_register r s s' :
    reachable s → register r s = Ret tt s' → reachable s'
| reach_teardown th s s' :
    reachable s → _tcase_cleanup th s = Ret tt s' → reachable s'
| reach_shutdown v s s' :
    reachable s → ktf_cleanup s = Ret v s' → reachable s'
| reach_report c skb v s s' :
    reachable s → report skb c s = Ret v s' → reachable s'.

(** ** Counting what a message carries *)

(** The sum of the values of the [KTF_A_STAT] attributes of a message: the
    flushed counts, and the result codes of the failures, which are zero. *)
Fixpoint stat_sum (skb : sk_buff) : Z :=
  match skb with
  | [] => 0
  | NlaU32 KTF_A_STAT v :: rest => v + stat_sum rest
  | _ :: rest => stat_sum rest
  end.

(** The number of passing calls of a run. *)
Fixpoint passes (calls : list report_call) : Z :=
  match calls with
  | [] => 0
  | c :: rest => (if decide (rc_result c ≠ 0) then 1 else 0) + passes rest
  end.

(** ** Hooks that nobody can free

    Every live hook is on the [test_list] of its handle, where
    [_tcase_cleanup] finds it. *)
Definition no_leak (s : kstate) : Prop :=
  ∀ f h, hooks s !! f = Some h → f ∈ handle_list s (fh_handle h).

(** ** The end of a session *)

(** The teardown of several owners, one after the other. *)
Fixpoint teardown_all (ths : list khandle) : K unit :=
  match ths with
  | [] => mret tt
  | th :: rest => _tcase_cleanup th;; teardown_all rest
  end.

(** ** Sample inputs *)

Definition pass_call : report_call :=
  mk_report_call None 1 (list_ascii_of_string "t.c") 10 (list_ascii_of_string "ok").

Definition fail_call (found : option (list ascii)) (text : list ascii) : report_call :=
  mk_report_call found 0 (list_ascii_of_string "t.c") 42 text.

Definition timeout_call : report_call :=
  fail_call (Some []) (list_ascii_of_string "timeout").

Definition all_ok : kchoice := mk_kchoice true true 0 0.

Definition ping : __test_desc := mk_test_desc "basic" "ping" "t.c" 7%positive.
Definition pong : __test_desc := mk_test_desc "basic" "pong" "t.c" 8%positive.
Definition pang : __test_desc := mk_test_desc "basic" "pang" "t.c" 9%positive.
Definition echo : __test_desc := mk_test_desc "other" "echo" "u.c" 5%positive.

Definition reg_ping : registration := mk_registration all_ok ping 1%nat 0 0 0 1.
Definition reg_pong : registration := mk_registration all_ok pong 1%nat 0 0 0 1.
Definition reg_pang : registration := mk_registration all_ok pang 2%nat 0 0 0 4.
Definition reg_echo : registration := mk_registration all_ok echo 1%nat 0 0 0 1.

(** The state a call leaves, for calls that are known to return. *)
Definition state_after {A} (m : K A) (s : kstate) : kstate :=
  match m s with
  | Ret _ s' => s'
  | _ => s
  end.

(** One hook, registered by handle 1 under the case "basic". *)
Definition one_hook_state : kstate :=
  state_after (register reg_ping) kstate_init.

(** Handle 1 has two hooks under "basic" and one under "other", handle 2
    has one hook under "basic". *)
Definition busy_state : kstate :=
  state_after (register_all [reg_ping; reg_pong; reg_pang; reg_echo]) kstate_init.

(** A run of reports with passes and failures mixed. *)
Definition mixed_run : list report_call :=
  [pass_call; pass_call; timeout_call; pass_call; timeout_call; pass_call].

(** The state once the only owner of [one_hook_state] is torn down. *)
Definition torn_down_state : kstate :=
  state_after (_tcase_cleanup 1%nat) one_hook_state.

(** ** Reasoning about calls *)

Ltac kunfold :=
  unfold mbind, K_bind, mret, K_ret, modify, get_state, crash in *.

Ltac ksimpl :=
  cbn [cases hooks test_cases test_list tc_lock assert_cnt
       set_cases set_hooks set_test_cases set_test_list set_tc_lock
       set_assert_cnt fst snd kmap_name fun_list] in *.

(** * Reporting *)

Lemma u32_range z : 0 ≤ u32 z < 2 ^ 32.
Proof. unfold u32. apply Z.mod_pos_bound. lia. Qed.

Lemma u32_small z : 0 ≤ z < 2 ^ 32 → u32 z = z.
Proof. intros. unfold u32. by apply Z.mod_small. Qed.

Lemma set_assert_cnt_id s : set_assert_cnt (assert_cnt s) s = s.
Proof. by destruct s. Qed.

Lemma fail_unless_pass found skb result file line text s :
  result ≠ 0 →
  _fail_unless found skb result file line text s
  = Ret (result, skb) (set_assert_cnt (u32 (assert_cnt s + 1)) s).
Proof. intros H. unfold _fail_unless. by rewrite decide_True. Qed.

(** A run of passing calls only counts. *)
Lemma run_reports_pass calls : ∀ skb s,
  Forall (λ c, rc_result c ≠ 0) calls →
  0 ≤ assert_cnt s < 2 ^ 32 →
  run_reports calls skb s
  = Ret skb (set_assert_cnt (u32 (assert_cnt s + Z.of_nat (length calls))) s).
Proof.
  induction calls as [|c calls IH]; intros skb s Hall Hcnt.
  - cbn [run_reports length]. kunfold.
    rewrite Z.add_0_r, u32_small by done. by rewrite set_assert_cnt_id.
  - apply Forall_cons_1 in Hall as [Hc Hall'].
    cbn [run_reports]. unfold report. kunfold.
    rewrite fail_unless_pass by done. cbn [snd].
    rewrite IH; [|done|apply u32_range]. f_equal.
    destruct s; unfold set_assert_cnt; cbn. f_equal.
    unfold u32. rewrite Zplus_mod_idemp_l. f_equal. cbn [length]. lia.
Qed.

Lemma run_reports_app l1 : ∀ l2 skb s,
  run_reports (l1 ++ l2) skb s
  = match run_reports l1 skb s with
    | Ret skb' s' => run_reports l2 skb' s'
    | Crash e => Crash e
    | Hang => Hang
    end.
Proof.
  induction l1 as [|c l1 IH]; intros l2 skb s; [done|].
  cbn [app run_reports]. kunfold.
  destruct (report skb c s) as [r s'| |]; [apply IH|done|done].
Qed.

Lemma c_str_app_nul l : ∀ r, c_str (l ++ NUL :: r) = Some (until_nul l).
Proof.
  induction l as [|c l IH]; intros r; cbn.
  - by rewrite decide_True.
  - destruct (decide (c = NUL)); [done|]. by rewrite IH.
Qed.

Lemma insert_after_nul (l : list ascii) : ∀ r (i : nat),
  (length l ≤ i)%nat → ∃ r', <[i := NUL]> (l ++ NUL :: r) = l ++ NUL :: r'.
Proof.
  induction l as [|c l IH]; intros r i Hi.
  - destruct i; cbn; eauto.
  - destruct i; cbn in Hi; [lia|].
    destruct (IH r i) as [r' Hr']; [lia|]. exists r'.
    change (c :: <[i := NUL]> (l ++ NUL :: r) = c :: (l ++ NUL :: r')).
    by f_equal.
Qed.

(** The three steps that build the message: formatting, the terminator
    written at the length returned, and the string read back. *)
Lemma format_message {A} (b text : list ascii) (m : nat) (k : list ascii → K A) s :
  (length text < length b)%nat → (m < length b)%nat →
  (r ← vsnprintf (Some b) (S m) text;
   buf ← store_byte r.1 r.2 NUL;
   str ← load_str buf;
   k str) s
  = k (until_nul (take m text)) s.
Proof.
  intros Htext Hm. unfold vsnprintf.
  rewrite decide_True by lia. kunfold. cbn [fst snd].
  set (n := (length text `min` m)%nat).
  assert (Hn : length (take n text) = n) by (rewrite length_take; lia).
  unfold store_byte. rewrite decide_True; last first.
  { rewrite length_app, Hn. cbn [length]. rewrite length_drop. lia. }
  rewrite Nat2Z.id.
  destruct (insert_after_nul (take n text) (drop (S n) b) (length text))
    as [r' ->]; [lia|].
  unfold mret, K_ret, load_str. rewrite c_str_app_nul.
  replace (take n text) with (take m text); [done|].
  destruct (decide (length text ≤ m)%nat).
  - rewrite !take_ge by lia. done.
  - by replace n with m by lia.
Qed.

Lemma format_message_overrun {A} (b text : list ascii) (m : nat) (k : list ascii → K A) s :
  (length b ≤ length text)%nat → (m < length b)%nat →
  (r ← vsnprintf (Some b) (S m) text;
   buf ← store_byte r.1 r.2 NUL;
   str ← load_str buf;
   k str) s
  = Crash OutOfBounds.
Proof.
  intros Htext Hm. unfold vsnprintf.
  rewrite decide_True by lia. kunfold. cbn [fst snd].
  unfold store_byte. rewrite decide_False; [done|].
  rewrite length_app, length_take. cbn [length]. rewrite length_drop. lia.
Qed.

(** The failing branch when the buffer is there and the text fits in it. *)
Lemma fail_unless_fail_gen g skb file line text s :
  (length text < MAX_PRINTF)%nat →
  _fail_unless (Some g) skb 0 file line text s
  = Ret (0, (if decide (assert_cnt s = 0) then skb
             else nla_put_u32 skb KTF_A_STAT (assert_cnt s))
            ++ failure_record (mk_report_call (Some g) 0 file line text))
        (set_assert_cnt 0 s).
Proof.
  intros Htext. unfold _fail_unless.
  rewrite decide_False by lia.
  change (MAX_PRINTF - 1)%nat with (S (MAX_PRINTF - 2)).
  unfold kmalloc_buf. cbn [fmap option_fmap option_map].
  unfold flush_assert_cnt at 1.
  assert (Hlen : length (resize MAX_PRINTF NUL g) = MAX_PRINTF)
    by apply length_resize.
  destruct (decide (assert_cnt s = 0)) as [H0|H0].
  - unfold mbind at 1, K_bind at 1. unfold mbind at 1, K_bind at 1.
    unfold get_state at 1. rewrite decide_False by lia.
    unfold mret at 1, K_ret at 1.
    rewrite format_message; [|lia|unfold MAX_PRINTF in *; lia].
    unfold mret, K_ret.
    replace (set_assert_cnt 0 s) with s
      by (rewrite <- H0; symmetry; apply set_assert_cnt_id).
    unfold nla_put_string, nla_put_u32, failure_record, bounded_text.
    cbn [rc_file rc_line rc_text app].
    by rewrite <- !app_assoc.
  - unfold mbind at 1, K_bind at 1. unfold mbind at 1, K_bind at 1.
    unfold get_state at 1. rewrite decide_True by lia.
    unfold mbind at 1, K_bind at 1. unfold modify at 1.
    unfold mret at 1, K_ret at 1.
    rewrite format_message; [|lia|unfold MAX_PRINTF in *; lia].
    unfold mret, K_ret.
    unfold nla_put_string, nla_put_u32, failure_record, bounded_text.
    cbn [rc_file rc_line rc_text app].
    by rewrite <- !app_assoc.
Qed.

Lemma fail_unless_fail g skb file line text s :
  0 ≤ assert_cnt s < 2 ^ 32 →
  (length text < MAX_PRINTF)%nat →
  _fail_unless (Some g) skb 0 file line text s
  = Ret (0, skb ++ flushed_count (assert_cnt s)
               ++ failure_record (mk_report_call (Some g) 0 file line text))
        (set_assert_cnt 0 s).
Proof.
  intros Hcnt Htext. rewrite fail_unless_fail_gen by done.
  unfold flushed_count, nla_put_u32. rewrite u32_small by done.
  destruct (decide (assert_cnt s = 0)); [done|]. by rewrite <- app_assoc.
Qed.

(** The failing branch when the text is as long as the buffer or longer:
    the terminator is written at the length [vsnprintf] returns, which is
    not inside the object. *)
Lemma fail_unless_overrun g skb file line text s :
  (MAX_PRINTF ≤ length text)%nat →
  _fail_unless (Some g) skb 0 file line text s = Crash OutOfBounds.
Proof.
  intros Htext. unfold _fail_unless.
  rewrite decide_False by lia.
  change (MAX_PRINTF - 1)%nat with (S (MAX_PRINTF - 2)).
  unfold kmalloc_buf. cbn [fmap option_fmap option_map].
  assert (Hlen : length (resize MAX_PRINTF NUL g) = MAX_PRINTF)
    by apply length_resize.
  unfold mbind at 1, K_bind at 1.
  destruct (flush_assert_cnt skb s) as [skb' s'| |] eqn:Hflush.
  - rewrite format_message_overrun; [done|lia|unfold MAX_PRINTF in *; lia].
  - unfold flush_assert_cnt in Hflush. kunfold. by case_decide.
  - unfold flush_assert_cnt in Hflush. kunfold. by case_decide.
Qed.

(** The text of a failure record is shorter than [MAX_PRINTF - 1]. *)
Lemma bounded_text_length text :
  (length (bounded_text text) ≤ MAX_PRINTF - 2)%nat.
Proof.
  unfold bounded_text.
  assert (H : ∀ l : list ascii, (length (until_nul l) ≤ length l)%nat).
  { induction l as [|c l IH]; cbn; [done|]. case_decide; cbn; lia. }
  etrans; [apply H|]. rewrite length_take. lia.
Qed.

Lemma until_nul_id (l : list ascii) : NUL ∉ l → until_nul l = l.
Proof.
  induction l as [|c l IH]; intros Hnul; [done|]. cbn.
  rewrite decide_False by (intros ->; apply Hnul, list_elem_of_here).
  rewrite IH; [done|]. intros ?. by apply Hnul, list_elem_of_further.
Qed.

(** A text without NUL of at most [MAX_PRINTF - 2] characters is carried
    whole. *)
Lemma bounded_text_id text :
  NUL ∉ text → (length text ≤ MAX_PRINTF - 2)%nat → bounded_text text = text.
Proof.
  intros Hnul Hlen. unfold bounded_text. rewrite take_ge by done.
  by apply until_nul_id.
Qed.

(** The failing branch without a buffer. *)
Lemma fail_unless_no_buffer skb file line text s :
  _fail_unless None skb 0 file line text s = Crash NullDeref.
Proof.
  unfold _fail_unless. rewrite decide_False by lia.
  unfold flush_assert_cnt. kunfold. by case_decide.
Qed.

(** The value returned, where a value is returned: whatever [_fail_unless]
    returns is [result]; the passing branch always returns, without touching
    the message; the failing branch returns whenever the message buffer was
    allocated and the text is shorter than the buffer. *)
Theorem fail_unless_returns_result found skb result file line text s :
  (∀ r skb' s',
     _fail_unless found skb result file line text s = Ret (r, skb') s' →
     r = result) ∧
  (result ≠ 0 →
   ∃ s', _fail_unless found skb result file line text s = Ret (result, skb) s') ∧
  (result = 0 → is_Some found → (length text < MAX_PRINTF)%nat →
   ∃ skb' s', _fail_unless found skb result file line text s
              = Ret (result, skb') s').
Proof.
  split; [|split].
  - intros r skb' s'. unfold _fail_unless. kunfold.
    case_decide; [congruence|].
    repeat case_match; congruence.
  - intros H. rewrite fail_unless_pass by done. eauto.
  - intros -> [g ->] Htext. rewrite fail_unless_fail_gen by done. eauto.
Qed.

Lemma fail_unless_returns_result_witness :
  (∃ s', _fail_unless None [] 1 [] 10 [] kstate_init = Ret (1, []) s') ∧
  (∃ skb' s', _fail_unless (Some []) [] 0 [] 10 [] kstate_init = Ret (0, skb') s').
Proof.
  split.
  - apply (fail_unless_returns_result None [] 1 [] 10 [] kstate_init). lia.
  - apply (fail_unless_returns_result (Some []) [] 0 [] 10 [] kstate_init).
    + reflexivity.
    + eexists; reflexivity.
    + unfold MAX_PRINTF; simpl; lia.
Defined.

(** C2: a formatted message longer than 4095 bytes does not leave
    [_fail_unless] inside its buffer: [vsnprintf] returns the length of the
    whole text, and the terminator [buf[len] = 0] is stored at that index,
    past the end of the [MAX_PRINTF] bytes. *)
Theorem fail_unless_long_message_overruns g skb file line text s :
  (4095 < length text)%nat →
  _fail_unless (Some g) skb 0 file line text s = Crash OutOfBounds.
Proof.
  intros Htext. apply fail_unless_overrun. unfold MAX_PRINTF. lia.
Qed.

Lemma fail_unless_long_message_overruns_witness :
  _fail_unless (Some []) [] 0 (list_ascii_of_string "t.c") 42
    (replicate 4096 "a"%char) kstate_init
  = Crash OutOfBounds.
Proof.
  apply (fail_unless_long_message_overruns [] [] (list_ascii_of_string "t.c")
           42 (replicate 4096 "a"%char) kstate_init).
  rewrite length_replicate. lia.
Defined.

(** A text of exactly 4095 characters is stored without its last one. *)
Lemma fail_unless_4095_cut :
  ∃ msg, _fail_unless (Some []) [] 0 [] 42 (replicate 4095 "a"%char) kstate_init
         = Ret (0, [NlaU32 KTF_A_STAT 0; NlaString KTF_A_FILE EmptyString;
                    NlaU32 KTF_A_NUM 42; NlaString KTF_A_STR msg]) kstate_init
         ∧ String.length msg = 4094%nat.
Proof. eexists. split; vm_compute; reflexivity. Qed.

(** C9: when the [kmalloc] of the message buffer fails, the failing branch
    of [_fail_unless] hands the null pointer to [vsnprintf] and stores
    through it: the call crashes, whatever its other arguments. *)
Theorem fail_unless_alloc_failure_crashes skb file line text s :
  _fail_unless None skb 0 file line text s = Crash NullDeref.
Proof.
  unfold _fail_unless. rewrite decide_False by lia.
  unfold kmalloc_buf, vsnprintf. cbn [fmap option_fmap option_map].
  unfold flush_assert_cnt. kunfold. by case_decide.
Qed.

(** C4 (amended): fewer than [2 ^ 32] passing calls on a zero counter,
    followed by a failing call whose buffer is allocated and whose text is
    shorter than the buffer, add to the message the count of the passes
    (nothing when there were none) and then the failure record: result
    code, file, line, text; the counter is zero again and the state is the
    one the run started from. *)
Theorem batched_report passes f g skb s :
  Forall (λ c, rc_result c ≠ 0) passes →
  Z.of_nat (length passes) < 2 ^ 32 →
  assert_cnt s = 0 →
  rc_result f = 0 →
  rc_found f = Some g →
  (length (rc_text f) < MAX_PRINTF)%nat →
  run_reports (passes ++ [f]) skb s
  = Ret (skb ++ flushed_count (Z.of_nat (length passes)) ++ failure_record f) s.
Proof.
  intros Hpass Hlen Hcnt Hres Hfound Htext.
  rewrite run_reports_app, run_reports_pass by (done || lia).
  rewrite Hcnt, Z.add_0_l, u32_small by lia.
  cbn [run_reports]. unfold report. destruct f as [fd res file line text].
  cbn in Hres, Hfound, Htext. subst. kunfold.
  cbn [rc_found rc_result rc_file rc_line rc_text].
  rewrite fail_unless_fail; cbn [assert_cnt set_assert_cnt]; [|lia|done].
  cbn [snd]. f_equal. destruct s; cbn in *. by subst.
Qed.

Lemma batched_report_witness :
  run_reports (replicate 5 pass_call ++ [timeout_call]) [] kstate_init
  = Ret ([NlaU32 KTF_A_STAT 5] ++ failure_record timeout_call) kstate_init.
Proof.
  apply (batched_report (replicate 5 pass_call) timeout_call [] [] kstate_init).
  - repeat constructor; vm_compute; discriminate.
  - vm_compute; reflexivity.
  - reflexivity.
  - reflexivity.
  - reflexivity.
  - vm_compute. lia.
Defined.

(** Counterexample to C4 as stated, at [N = 2 ^ 32]: the 32-bit counter is
    back at zero when the failure comes, and no count is flushed. *)
Lemma batched_report_counterexample :
  run_reports (replicate (Z.to_nat (2 ^ 32)) pass_call ++ [timeout_call])
    [] kstate_init
  = Ret (failure_record timeout_call) kstate_init
  ∧ failure_record timeout_call
    ≠ flushed_count (2 ^ 32) ++ failure_record timeout_call.
Proof.
  split.
  - rewrite run_reports_app, run_reports_pass.
    + rewrite length_replicate, Z2Nat.id by lia.
      change (u32 (assert_cnt kstate_init + 2 ^ 32)) with 0.
      vm_compute. reflexivity.
    + apply Forall_replicate. intros H. vm_compute in H. discriminate.
    + vm_compute. split; [discriminate|reflexivity].
  - intros H. apply (f_equal length) in H. vm_compute in H. discriminate.
Qed.

(** * The registry *)

Lemma fresh_case_free s : cases s !! fresh (dom (cases s)) = None.
Proof. apply not_elem_of_dom, is_fresh. Qed.

Lemma fresh_hook_free s : hooks s !! fresh (dom (hooks s)) = None.
Proof. apply not_elem_of_dom, is_fresh. Qed.

(** ** [ktf_case_find_create] *)

Lemma find_create_found k name a s :
  test_cases s !! name = Some a →
  ktf_case_find_create k name s = Ret (Some a) s.
Proof.
  intros H. unfold ktf_case_find_create, ktf_case_find, ktf_map_find_entry.
  kunfold. by rewrite H.
Qed.

Lemma case_create_ok k name s :
  kmalloc_tc k = true → elem_init_ret k = 0 →
  ktf_case_create k name s
  = Ret (Some (fresh (dom (cases s))))
        (set_cases <[fresh (dom (cases s)) := mk_ktf_case name []]> s).
Proof.
  intros Htc Hinit. unfold ktf_case_create, kmalloc_case, ktf_map_elem_init.
  rewrite Htc, Hinit. unfold load_case, store_case. kunfold. ksimpl.
  rewrite lookup_insert_eq. ksimpl. rewrite lookup_insert_eq.
  rewrite decide_True by done. ksimpl. rewrite decide_True by done.
  f_equal. destruct s; unfold set_cases; ksimpl.
  by rewrite !insert_insert_eq.
Qed.

Lemma case_create_fails k name s :
  kmalloc_tc k = false ∨ elem_init_ret k ≠ 0 →
  ktf_case_create k name s = Ret None s.
Proof.
  intros H. unfold ktf_case_create, kmalloc_case, ktf_map_elem_init.
  destruct (kmalloc_tc k); [|done]. destruct H as [|H]; [done|].
  unfold load_case, store_case, kfree_case. kunfold. ksimpl.
  rewrite lookup_insert_eq. ksimpl. rewrite lookup_insert_eq.
  rewrite decide_False by done. rewrite decide_False by done.
  f_equal. pose proof (fresh_case_free s) as Hfr.
  destruct s; unfold set_cases; ksimpl.
  rewrite !insert_insert_eq, delete_insert_eq. f_equal.
  by apply delete_id.
Qed.

Lemma find_create_new k name s :
  test_cases s !! name = None →
  kmalloc_tc k = true → elem_init_ret k = 0 → map_insert_ret k = 0 →
  ktf_case_find_create k name s
  = Ret (Some (fresh (dom (cases s))))
        (set_test_cases <[name := fresh (dom (cases s))]>
           (set_cases <[fresh (dom (cases s)) := mk_ktf_case name []]> s)).
Proof.
  intros Hname Htc Hinit Hins.
  unfold ktf_case_find_create, ktf_case_find, ktf_map_find_entry.
  unfold mbind at 1, K_bind at 1. rewrite Hname.
  unfold mbind at 1, K_bind at 1. rewrite case_create_ok by done.
  unfold ktf_map_insert, load_case. kunfold. ksimpl.
  rewrite lookup_insert_eq. ksimpl. rewrite Hname, Hins.
  rewrite decide_True by done. by rewrite decide_True by done.
Qed.

Lemma find_create_insert_fails k name s :
  test_cases s !! name = None →
  kmalloc_tc k = true → elem_init_ret k = 0 → map_insert_ret k ≠ 0 →
  ktf_case_find_create k name s = Ret None s.
Proof.
  intros Hname Htc Hinit Hins.
  unfold ktf_case_find_create, ktf_case_find, ktf_map_find_entry.
  unfold mbind at 1, K_bind at 1. rewrite Hname.
  unfold mbind at 1, K_bind at 1. rewrite case_create_ok by done.
  unfold ktf_map_insert, load_case, kfree_case. kunfold. ksimpl.
  rewrite lookup_insert_eq. ksimpl. rewrite Hname.
  rewrite decide_False by done. rewrite decide_False by done.
  f_equal. pose proof (fresh_case_free s) as Hfr.
  destruct s; unfold set_cases; ksimpl.
  rewrite delete_insert_eq. f_equal.
  by apply delete_id.
Qed.

Lemma find_create_no_case k name s :
  test_cases s !! name = None →
  kmalloc_tc k = false ∨ elem_init_ret k ≠ 0 →
  ktf_case_find_create k name s = Crash NullDeref.
Proof.
  intros Hname H.
  unfold ktf_case_find_create, ktf_case_find, ktf_map_find_entry.
  unfold mbind at 1, K_bind at 1. rewrite Hname.
  unfold mbind at 1, K_bind at 1. by rewrite case_create_fails.
Qed.

(** The only way for the resolution of a case to return NULL. *)
Lemma find_create_None_inv k name s s1 :
  ktf_case_find_create k name s = Ret None s1 →
  s1 = s ∧ test_cases s !! name = None ∧
  kmalloc_tc k = true ∧ elem_init_ret k = 0 ∧ map_insert_ret k ≠ 0.
Proof.
  intros H.
  destruct (test_cases s !! name) as [a|] eqn:Hname.
  { by rewrite (find_create_found _ _ a) in H. }
  destruct (kmalloc_tc k) eqn:Htc; last first.
  { rewrite find_create_no_case in H by auto. done. }
  destruct (decide (elem_init_ret k = 0)) as [Hinit|Hinit]; last first.
  { rewrite find_create_no_case in H by auto. done. }
  destruct (decide (map_insert_ret k = 0)) as [Hins|Hins].
  { rewrite find_create_new in H by done. done. }
  rewrite find_create_insert_fails in H by done. by injection H as <-.
Qed.

(** ** The invariant *)

Lemma handle_list_insert th l th' s :
  handle_list (set_test_list <[th := l]> s) th'
  = if decide (th = th') then l else handle_list s th'.
Proof.
  unfold handle_list. ksimpl. rewrite lookup_insert. by case_decide.
Qed.

Lemma wf_init : wf kstate_init.
Proof.
  split; unfold handle_list; cbn; intros *; rewrite ?lookup_empty; try done.
  - cbn. by intros ?%elem_of_nil.
  - cbn. by intros ?%elem_of_nil.
  - constructor.
Qed.

Lemma wf_with_case name a s :
  wf s → cases s !! a = None → test_cases s !! name = None →
  wf (with_case name a s).
Proof.
  intros [Hmap Hname Hreg Hfl Hhl Hboth Hnd Hfnd Hone] Ha Hn.
  assert (Hlive : ∀ a' c, cases s !! a' = Some c → a ≠ a') by congruence.
  split; unfold with_case, handle_list in *; ksimpl.
  - intros n a'. rewrite lookup_insert. case_decide.
    + intros [= <-]. by rewrite lookup_insert_eq.
    + intros H'. destruct (Hmap _ _ H') as [c Hc].
      rewrite lookup_insert_ne by eauto. eauto.
  - intros n a' c. rewrite lookup_insert. case_decide.
    + intros [= <-]. rewrite lookup_insert_eq. by intros [= <-].
    + intros H'. destruct (Hmap _ _ H') as [c' Hc'].
      rewrite lookup_insert_ne by eauto. by apply Hname.
  - intros a' c. rewrite lookup_insert. case_decide.
    + intros [= <-]. subst. apply lookup_insert_eq.
    + intros Hc. rewrite lookup_insert_ne; [by apply Hreg|].
      intros E. apply Hreg in Hc. congruence.
  - intros a' c f. rewrite lookup_insert. case_decide.
    + intros [= <-]. cbn. by intros ?%elem_of_nil.
    + apply Hfl.
  - apply Hhl.
  - intros th f Hin. destruct (Hboth th f Hin) as (a0 & c0 & Hc0 & Hf0).
    exists a0, c0. rewrite lookup_insert_ne by eauto. done.
  - apply Hnd.
  - intros a' c. rewrite lookup_insert. case_decide.
    + intros [= <-]. constructor.
    + apply Hfnd.
  - intros a1 c1 a2 c2 f. rewrite !lookup_insert. repeat case_decide.
    + congruence.
    + intros [= <-]. cbn. by intros _ ?%elem_of_nil.
    + intros _ [= <-]. cbn. by intros _ ?%elem_of_nil.
    + apply Hone.
Qed.

Lemma wf_linked f h a c th s :
  wf s → hooks s !! f = None → cases s !! a = Some c → fh_handle h = th →
  wf (linked f h a c th s).
Proof.
  intros [Hmap Hname Hreg Hfl Hhl Hboth Hnd Hfnd Hone] Hf Ha Hh.
  assert (Hold : ∀ f' h', hooks s !! f' = Some h' →
            f' ∈ handle_list s (fh_handle h') →
            ∃ h0, <[f := h]> (hooks s) !! f' = Some h0 ∧
                  f' ∈ handle_list (linked f h a c th s) (fh_handle h0)).
  { intros f' h' Hf' Hin. exists h'.
    rewrite lookup_insert_ne by congruence. split; [done|].
    unfold linked. rewrite handle_list_insert. case_decide.
    - rewrite H. by apply list_elem_of_further.
    - done. }
  assert (Hnew : ∃ h0, <[f := h]> (hooks s) !! f = Some h0 ∧
                  f ∈ handle_list (linked f h a c th s) (fh_handle h0)).
  { exists h. rewrite lookup_insert_eq. split; [done|].
    unfold linked. rewrite handle_list_insert, decide_True by done.
    apply list_elem_of_here. }
  assert (Hnotin : ∀ a0 c0, cases s !! a0 = Some c0 → f ∉ fun_list c0).
  { intros a0 c0 Hc0 Hin. destruct (Hfl _ _ _ Hc0 Hin) as (h' & ? & _).
    congruence. }
  assert (Hmem : ∀ a' c', cases (linked f h a c th s) !! a' = Some c' →
            ∃ c0, cases s !! a' = Some c0 ∧ kmap_name c' = kmap_name c0 ∧
              ∀ f', f' ∈ fun_list c' → (f' = f ∧ a' = a) ∨ f' ∈ fun_list c0).
  { intros a' c'. unfold linked. ksimpl. rewrite lookup_insert. case_decide.
    - subst a'. intros [= <-]. exists c. split; [done|]. split; [done|].
      cbn [fun_list]. intros f' [->|?]%elem_of_cons; auto.
    - intros Hc'. exists c'. auto. }
  assert (Hkeep : ∀ a0 c0 f', cases s !! a0 = Some c0 → f' ∈ fun_list c0 →
            ∃ c', cases (linked f h a c th s) !! a0 = Some c' ∧ f' ∈ fun_list c').
  { intros a0 c0 f' Hc0 Hin. unfold linked. ksimpl. rewrite lookup_insert.
    case_decide.
    - subst a0. eexists. split; [done|]. cbn [fun_list].
      apply list_elem_of_further. congruence.
    - eauto. }
  split.
  - intros n a' H'. unfold linked in *. ksimpl.
    rewrite lookup_insert. case_decide; eauto.
  - intros n a' c' Hn (c0 & Hc0 & -> & _)%Hmem. by apply (Hname n a').
  - intros a' c' (c0 & Hc0 & -> & _)%Hmem. by apply Hreg.
  - intros a' c' f'. change (hooks (linked f h a c th s)) with (<[f := h]> (hooks s)).
    change (cases (linked f h a c th s))
      with (<[a := mk_ktf_case (kmap_name c) (f :: fun_list c)]> (cases s)).
    rewrite lookup_insert. case_decide.
    + intros [= <-]. cbn [fun_list]. intros [->|Hin]%elem_of_cons; [done|].
      destruct (Hfl a c f' Ha Hin) as (h' & ? & ?). eauto.
    + intros Hc' Hin. destruct (Hfl a' c' f' Hc' Hin) as (h' & ? & ?). eauto.
  - intros th' f'. change (hooks (linked f h a c th s)) with (<[f := h]> (hooks s)).
    unfold linked. rewrite handle_list_insert. case_decide.
    + subst th'. intros [->|Hin]%elem_of_cons.
      * exists h. by rewrite lookup_insert_eq.
      * destruct (Hhl _ _ Hin) as (h' & ? & ?). exists h'.
        by rewrite lookup_insert_ne by congruence.
    + intros Hin. destruct (Hhl _ _ Hin) as (h' & ? & ?). exists h'.
      by rewrite lookup_insert_ne by congruence.
  - intros th' f'. unfold linked at 1. rewrite handle_list_insert.
    assert (Hfrom : f' ∈ handle_list s th' →
              ∃ a0 c0, cases (linked f h a c th s) !! a0 = Some c0 ∧
                       f' ∈ fun_list c0).
    { intros Hin. destruct (Hboth _ _ Hin) as (a0 & c0 & Hc0 & Hf0).
      destruct (Hkeep a0 c0 f' Hc0 Hf0) as (c' & ? & ?). eauto. }
    case_decide; [|done]. subst th'. intros [->|Hin]%elem_of_cons; [|auto].
    exists a. eexists. unfold linked. ksimpl. rewrite lookup_insert_eq.
    split; [done|]. apply list_elem_of_here.
  - intros th'. unfold linked. rewrite handle_list_insert. case_decide.
    + apply NoDup_cons_2; [|apply Hnd].
      intros Hin. destruct (Hhl _ _ Hin) as (h' & ? & ?). congruence.
    + apply Hnd.
  - intros a' c'. unfold linked. ksimpl. rewrite lookup_insert. case_decide.
    + intros [= <-]. cbn [fun_list]. apply NoDup_cons_2; eauto.
    + apply Hfnd.
  - intros a1 c1 a2 c2 f0 (d1 & Hd1 & _ & H1)%Hmem (d2 & Hd2 & _ & H2)%Hmem
      [[-> ->]|Hin1]%H1 [[E ->]|Hin2]%H2.
    + done.
    + by destruct (Hnotin a2 d2).
    + subst f0. by destruct (Hnotin a1 d1).
    + by apply (Hone a1 d1 a2 d2 f0).
Qed.

Lemma omap_agree {A B} (g1 g2 : A → option B) (l : list A) :
  (∀ x, x ∈ l → g1 x = g2 x) → omap g1 l = omap g2 l.
Proof.
  induction l as [|x l IH]; intros H; [done|]. cbn.
  rewrite (H x) by apply list_elem_of_here.
  rewrite IH; [done|]. intros y Hy. apply H. by apply list_elem_of_further.
Qed.

(** A new hook is visited first. *)
Lemma case_iteration_linked f h a c th name s :
  wf s → hooks s !! f = None →
  test_cases s !! name = Some a → cases s !! a = Some c →
  case_iteration (linked f h a c th s) name = h :: case_iteration s name.
Proof.
  intros Hwf Hf Hname Ha. unfold case_iteration, linked. ksimpl.
  rewrite Hname, Ha, lookup_insert_eq. cbn [fun_list].
  change (omap ?g (f :: ?l)) with (match g f with
                                   | Some y => y :: omap g l
                                   | None => omap g l
                                   end).
  cbn beta. rewrite lookup_insert_eq. f_equal. apply omap_agree.
  intros x Hx. destruct (wf_flist s Hwf a c x Ha Hx) as (h' & ? & ?).
  apply lookup_insert_ne. congruence.
Qed.

(** ** [_tcase_add_test] *)

Section add_test.
Variables (k : kchoice) (td : __test_desc) (th : khandle).
Variables (_signal allowed_exit_value start end_ : Z).

Lemma add_test_no_hook s :
  kmalloc_fc k = false →
  _tcase_add_test k td th _signal allowed_exit_value start end_ s = Ret tt s.
Proof. intros H. unfold _tcase_add_test, kmalloc_hook. by rewrite H. Qed.

Lemma add_test_locked s :
  kmalloc_fc k = true → tc_lock s = true →
  _tcase_add_test k td th _signal allowed_exit_value start end_ s = Hang.
Proof.
  intros H Hlock. unfold _tcase_add_test, kmalloc_hook, mutex_lock.
  rewrite H. kunfold. ksimpl. by rewrite Hlock.
Qed.

(** The case is there: the hook is linked to it. *)
Lemma add_test_found s a c :
  tc_lock s = false → kmalloc_fc k = true →
  test_cases s !! td_tclass td = Some a → cases s !! a = Some c →
  _tcase_add_test k td th _signal allowed_exit_value start end_ s
  = Ret tt (linked (fresh (dom (hooks s))) (filled_hook td th start end_) a c th s).
Proof.
  intros Hlock Hfc Hname Ha.
  unfold _tcase_add_test, kmalloc_hook, mutex_lock. rewrite Hfc.
  unfold mbind at 1, K_bind at 1. unfold mbind at 1, K_bind at 1.
  ksimpl. rewrite Hlock.
  unfold mbind at 1, K_bind at 1.
  rewrite (find_create_found _ _ a) by done.
  unfold list_add_flist, list_add_hlist, mutex_unlock, load_case, store_case.
  kunfold. ksimpl. rewrite Ha. f_equal.
  unfold linked, handle_list. destruct s; unfold set_test_list, set_cases,
    set_hooks, set_tc_lock; ksimpl. subst.
  by rewrite insert_insert_eq.
Qed.

(** The case is not there and can be made: the hook is linked to the new
    case. *)
Lemma add_test_new s :
  tc_lock s = false → kmalloc_fc k = true →
  test_cases s !! td_tclass td = None →
  kmalloc_tc k = true → elem_init_ret k = 0 → map_insert_ret k = 0 →
  _tcase_add_test k td th _signal allowed_exit_value start end_ s
  = Ret tt (linked (fresh (dom (hooks s))) (filled_hook td th start end_)
              (fresh (dom (cases s))) (mk_ktf_case (td_tclass td) []) th
              (with_case (td_tclass td) (fresh (dom (cases s))) s)).
Proof.
  intros Hlock Hfc Hname Htc Hinit Hins.
  unfold _tcase_add_test, kmalloc_hook, mutex_lock. rewrite Hfc.
  unfold mbind at 1, K_bind at 1. unfold mbind at 1, K_bind at 1.
  ksimpl. rewrite Hlock.
  unfold mbind at 1, K_bind at 1.
  rewrite find_create_new by done.
  unfold list_add_flist, list_add_hlist, mutex_unlock, load_case, store_case.
  kunfold. ksimpl. rewrite lookup_insert_eq. f_equal.
  unfold linked, with_case, handle_list.
  destruct s; unfold set_test_list, set_cases, set_hooks, set_tc_lock,
    set_test_cases; ksimpl. subst.
  by rewrite !insert_insert_eq.
Qed.

(** The case cannot be resolved: nothing is left of the call. *)
Lemma add_test_unresolved s :
  tc_lock s = false → kmalloc_fc k = true →
  test_cases s !! td_tclass td = None →
  kmalloc_tc k = true → elem_init_ret k = 0 → map_insert_ret k ≠ 0 →
  _tcase_add_test k td th _signal allowed_exit_value start end_ s = Ret tt s.
Proof.
  intros Hlock Hfc Hname Htc Hinit Hins.
  unfold _tcase_add_test, kmalloc_hook, mutex_lock. rewrite Hfc.
  unfold mbind at 1, K_bind at 1. unfold mbind at 1, K_bind at 1.
  ksimpl. rewrite Hlock.
  unfold mbind at 1, K_bind at 1.
  rewrite find_create_insert_fails by done.
  unfold kfree_hook, mutex_unlock. kunfold. f_equal.
  pose proof (fresh_hook_free s) as Hfr.
  destruct s; unfold set_hooks, set_tc_lock; ksimpl. subst.
  rewrite delete_insert_eq. f_equal. by apply delete_id.
Qed.

(** The case is not there and cannot be made: the call goes down with
    [ktf_case_find_create]. *)
Lemma add_test_no_case s :
  tc_lock s = false → kmalloc_fc k = true →
  test_cases s !! td_tclass td = None →
  kmalloc_tc k = false ∨ elem_init_ret k ≠ 0 →
  _tcase_add_test k td th _signal allowed_exit_value start end_ s
  = Crash NullDeref.
Proof.
  intros Hlock Hfc Hname Hno.
  unfold _tcase_add_test, kmalloc_hook, mutex_lock. rewrite Hfc.
  unfold mbind at 1, K_bind at 1. unfold mbind at 1, K_bind at 1.
  ksimpl. rewrite Hlock.
  unfold mbind at 1, K_bind at 1.
  by rewrite find_create_no_case.
Qed.

(** A registration that goes through. *)
Lemma add_test_ok s :
  wf s → tc_lock s = false → kmalloc_fc k = true →
  (test_cases s !! td_tclass td = None →
   kmalloc_tc k = true ∧ elem_init_ret k = 0 ∧ map_insert_ret k = 0) →
  ∃ s', _tcase_add_test k td th _signal allowed_exit_value start end_ s
        = Ret tt s' ∧
    wf s' ∧ tc_lock s' = false ∧
    is_Some (test_cases s' !! td_tclass td) ∧
    case_iteration s' (td_tclass td)
    = (filled_hook td th start end_) :: case_iteration s (td_tclass td) ∧
    handle_list s' th = fresh (dom (hooks s)) :: handle_list s th.
Proof.
  intros Hwf Hlock Hfc Hnew.
  destruct (test_cases s !! td_tclass td) as [a|] eqn:Hname.
  - destruct (wf_map s Hwf _ _ Hname) as [c Ha].
    eexists. split; [by apply (add_test_found s a c)|].
    split; [by apply wf_linked; auto using fresh_hook_free|].
    split; [done|]. split; [unfold linked; ksimpl; by rewrite Hname|].
    split; [by apply case_iteration_linked; auto using fresh_hook_free|].
    unfold linked. by rewrite handle_list_insert, decide_True.
  - destruct Hnew as (Htc & Hinit & Hins); [done|].
    pose proof (fresh_case_free s) as Hfr.
    pose proof (wf_with_case (td_tclass td) _ s Hwf Hfr) as Hwf1.
    set (s1 := with_case (td_tclass td) (fresh (dom (cases s))) s) in *.
    assert (Hn1 : test_cases s1 !! td_tclass td = Some (fresh (dom (cases s))))
      by apply lookup_insert_eq.
    assert (Ha1 : cases s1 !! fresh (dom (cases s))
                  = Some (mk_ktf_case (td_tclass td) []))
      by apply lookup_insert_eq.
    eexists. split; [by apply add_test_new|]. fold s1.
    split; [apply wf_linked; auto; apply (fresh_hook_free s)|].
    split; [done|]. split; [unfold linked; ksimpl; by rewrite Hn1|].
    split.
    + rewrite case_iteration_linked; auto; [|apply (fresh_hook_free s)].
      f_equal. unfold case_iteration. rewrite Hn1, Ha1, Hname. done.
    + unfold linked. by rewrite handle_list_insert, decide_True.
Qed.
End add_test.

Lemma register_ok r s :
  wf s → tc_lock s = false → can_register s r →
  ∃ s', register r s = Ret tt s' ∧
    wf s' ∧ tc_lock s' = false ∧
    is_Some (test_cases s' !! td_tclass (reg_td r)) ∧
    case_iteration s' (td_tclass (reg_td r))
    = hook_of r :: case_iteration s (td_tclass (reg_td r)) ∧
    handle_list s' (reg_th r) = fresh (dom (hooks s)) :: handle_list s (reg_th r).
Proof.
  intros Hwf Hlock [Hfc Hnew]. unfold register, hook_of.
  by apply add_test_ok.
Qed.

(** C1 (amended): three hooks registered in the order [h1], [h2], [h3]
    under one case name are visited in the order [h3], [h2], [h1], before
    the hooks the case had: [list_add] puts each new hook at the head of
    [fun_list]. *)
Theorem add_test_iteration_order r1 r2 r3 name s :
  wf s → tc_lock s = false →
  td_tclass (reg_td r1) = name →
  td_tclass (reg_td r2) = name →
  td_tclass (reg_td r3) = name →
  can_register s r1 →
  kmalloc_fc (reg_choice r2) = true →
  kmalloc_fc (reg_choice r3) = true →
  ∃ s', (register r1;; register r2;; register r3) s = Ret tt s' ∧
    case_iteration s' name
    = [hook_of r3; hook_of r2; hook_of r1] ++ case_iteration s name.
Proof.
  intros Hwf Hlock H1 H2 H3 Hr1 Hr2 Hr3.
  destruct (register_ok r1 s) as (s1 & E1 & Hwf1 & Hl1 & Hs1 & Hit1 & _); [done..|].
  rewrite H1 in Hs1, Hit1.
  destruct (register_ok r2 s1) as (s2 & E2 & Hwf2 & Hl2 & Hs2 & Hit2 & _); [done..| |].
  { split; [done|]. rewrite H2. intros Hn. rewrite Hn in Hs1. by destruct Hs1. }
  rewrite H2 in Hs2, Hit2.
  destruct (register_ok r3 s2) as (s3 & E3 & Hwf3 & Hl3 & Hs3 & Hit3 & _); [done..| |].
  { split; [done|]. rewrite H3. intros Hn. rewrite Hn in Hs2. by destruct Hs2. }
  rewrite H3 in Hit3.
  exists s3. split.
  - kunfold. by rewrite E1, E2, E3.
  - rewrite Hit3, Hit2, Hit1. done.
Qed.

Lemma add_test_iteration_order_witness :
  ∃ s', (register reg_ping;; register reg_pong;; register reg_pang) kstate_init
        = Ret tt s' ∧
    case_iteration s' "basic"
    = [hook_of reg_pang; hook_of reg_pong; hook_of reg_ping]
      ++ case_iteration kstate_init "basic".
Proof.
  apply (add_test_iteration_order reg_ping reg_pong reg_pang "basic" kstate_init).
  - apply wf_init.
  - reflexivity.
  - reflexivity.
  - reflexivity.
  - reflexivity.
  - split; [reflexivity|]. intros _. split; [reflexivity|]. split; reflexivity.
  - reflexivity.
  - reflexivity.
Defined.

(** Counterexample to C1 as stated: after the registration of "ping",
    "pong", "pang" in that order under the case "basic", the iteration
    visits "pang", "pong", "ping". *)
Lemma add_test_iteration_order_counterexample :
  ∃ s', (register reg_ping;; register reg_pong;; register reg_pang) kstate_init
        = Ret tt s' ∧
    fh_name <$> case_iteration s' "basic" = ["pang"; "pong"; "ping"] ∧
    case_iteration s' "basic"
    ≠ [hook_of reg_ping; hook_of reg_pong; hook_of reg_pang].
Proof.
  eexists. split; [vm_compute; reflexivity|].
  split; [vm_compute; reflexivity|]. vm_compute. discriminate.
Qed.

(** C6: when the [kmalloc] of a new case fails, [ktf_case_find_create] does
    not return NULL: it passes [&tc->kmap] of the null [tc] to
    [ktf_map_insert], which reads the element. *)
Theorem find_create_alloc_failure_crashes k name s :
  test_cases s !! name = None →
  kmalloc_tc k = false →
  ktf_case_find_create k name s = Crash NullDeref.
Proof.
  intros Hname Htc.
  unfold ktf_case_find_create, ktf_case_find, ktf_map_find_entry.
  unfold mbind at 1, K_bind at 1. rewrite Hname.
  unfold mbind at 1, K_bind at 1. rewrite case_create_fails by auto.
  reflexivity.
Qed.

Lemma find_create_alloc_failure_crashes_witness :
  ktf_case_find_create (mk_kchoice true false 0 0) "basic" kstate_init
  = Crash NullDeref.
Proof.
  apply (find_create_alloc_failure_crashes (mk_kchoice true false 0 0)
           "basic" kstate_init); reflexivity.
Defined.

(** When the insertion fails after the case was allocated, NULL is returned
    and the state is the one before the call: the new case is freed, it is
    neither live nor in the map. *)
Lemma find_create_insert_failure_frees k name s :
  test_cases s !! name = None →
  kmalloc_tc k = true → elem_init_ret k = 0 → map_insert_ret k ≠ 0 →
  ktf_case_find_create k name s = Ret None s ∧
  cases s !! fresh (dom (cases s)) = None.
Proof.
  intros. split; [by apply find_create_insert_fails|apply fresh_case_free].
Qed.

(** C7: the two failures of [_tcase_add_test] leave nothing behind.
    Without a hook the call returns at once, with the state untouched.
    When the case is not resolved, the call returns in the state it was
    called in: the hook it allocated is not live, and no [fun_list] and no
    [test_list] has changed. *)
Theorem add_test_failure_atomic r s :
  (kmalloc_fc (reg_choice r) = false → register r s = Ret tt s) ∧
  (∀ s1,
     kmalloc_fc (reg_choice r) = true → tc_lock s = false →
     ktf_case_find_create (reg_choice r) (td_tclass (reg_td r)) s = Ret None s1 →
     register r s = Ret tt s ∧
     hooks s !! fresh (dom (hooks s)) = None).
Proof.
  split.
  - apply add_test_no_hook.
  - intros s1 Hfc Hlock Hres.
    apply find_create_None_inv in Hres as (_ & Hname & Htc & Hinit & Hins).
    split; [by apply add_test_unresolved|apply fresh_hook_free].
Qed.

Lemma add_test_failure_atomic_witness :
  register (mk_registration (mk_kchoice false true 0 0) ping 1%nat 0 0 0 1)
    one_hook_state = Ret tt one_hook_state ∧
  register (mk_registration (mk_kchoice true true 0 (-12)) echo 1%nat 0 0 0 1)
    one_hook_state = Ret tt one_hook_state.
Proof.
  split.
  - apply (add_test_failure_atomic
             (mk_registration (mk_kchoice false true 0 0) ping 1%nat 0 0 0 1)
             one_hook_state).
    reflexivity.
  - apply (proj2 (add_test_failure_atomic
             (mk_registration (mk_kchoice true true 0 (-12)) echo 1%nat 0 0 0 1)
             one_hook_state) one_hook_state).
    + reflexivity.
    + vm_compute; reflexivity.
    + vm_compute; reflexivity.
Defined.

(** ** [_tcase_cleanup] *)

Lemma elem_of_without l xs f : f ∈ without l xs ↔ (f ∉ l) ∧ f ∈ xs.
Proof. unfold without. by rewrite list_elem_of_filter. Qed.

Lemma without_nil xs : without [] xs = xs.
Proof.
  unfold without. induction xs as [|x xs IH]; [done|].
  rewrite filter_cons_True by apply not_elem_of_nil. by rewrite IH.
Qed.

Lemma without_unlink fh n xs : without n (unlink fh xs) = without (fh :: n) xs.
Proof.
  unfold without, unlink. induction xs as [|x xs IH]; [done|].
  destruct (decide (x = fh)) as [->|Hne].
  - rewrite filter_cons_False by (intros H; by apply H).
    rewrite (filter_cons_False _ fh); [done|].
    intros H. apply H, list_elem_of_here.
  - rewrite filter_cons_True by done.
    destruct (decide (x ∈ n)) as [Hin|Hin].
    + rewrite filter_cons_False by (intros H; by apply H).
      rewrite (filter_cons_False _ x); [done|].
      intros H. by apply H, list_elem_of_further.
    + rewrite filter_cons_True by done.
      rewrite (filter_cons_True _ x); [by rewrite IH|].
      by intros [?|?]%elem_of_cons.
Qed.

Lemma without_self l : without l l = [].
Proof.
  apply elem_of_nil_inv. intros x [H1 H2]%elem_of_without. by apply H1.
Qed.

Lemma without_case_nil c : without_case [] c = c.
Proof.
  destruct c. unfold without_case. cbn [kmap_name fun_list].
  by rewrite without_nil.
Qed.

Lemma without_case_unlink fh n c :
  without_case n (unlink_case fh c) = without_case (fh :: n) c.
Proof.
  unfold without_case, unlink_case. cbn [kmap_name fun_list].
  by rewrite without_unlink.
Qed.

(** The loop takes the hooks of the list off every list and frees them, and
    does nothing else. *)
Lemma tcase_cleanup_loop_spec l : ∀ s,
  (∀ f, f ∈ l → is_Some (hooks s !! f)) → NoDup l →
  ∃ s', tcase_cleanup_loop l s = Ret tt s' ∧
    (∀ a, cases s' !! a = without_case l <$> cases s !! a) ∧
    (∀ th, test_list s' !! th = without l <$> test_list s !! th) ∧
    (∀ f, hooks s' !! f = if decide (f ∈ l) then None else hooks s !! f) ∧
    test_cases s' = test_cases s ∧ tc_lock s' = tc_lock s ∧
    assert_cnt s' = assert_cnt s.
Proof.
  induction l as [|fh n IH]; intros s Hlive Hnd.
  - exists s. split_and!; try done.
    + intros a. destruct (cases s !! a) as [c|]; [|done]. cbn.
      by rewrite without_case_nil.
    + intros th. destruct (test_list s !! th) as [xs|]; [|done]. cbn.
      by rewrite without_nil.
  - pose proof (NoDup_cons_1_1 _ _ Hnd) as Hfh.
    apply NoDup_cons_1_2 in Hnd.
    destruct (Hlive fh) as [h Hh]; [apply list_elem_of_here|].
    set (s1 := set_hooks (delete fh)
                 (set_test_list (fmap (unlink fh))
                    (set_cases (fmap (unlink_case fh)) s))).
    destruct (IH s1) as (s' & Hrun & Hc & Ht & Hk & Htc & Hlk & Hcnt); [|done|].
    { intros f Hf. subst s1. ksimpl. rewrite lookup_delete_ne by congruence.
      apply Hlive. by apply list_elem_of_further. }
    exists s'. split_and!.
    + cbn [tcase_cleanup_loop].
      unfold list_del_flist, list_del_hlist, kfree_hook, load_hook.
      kunfold. ksimpl. rewrite Hh. ksimpl. rewrite Hh. exact Hrun.
    + intros a. rewrite Hc. subst s1. ksimpl. rewrite lookup_fmap.
      destruct (cases s !! a) as [c|]; [|done]. cbn.
      by rewrite without_case_unlink.
    + intros th. rewrite Ht. subst s1. ksimpl. rewrite lookup_fmap.
      destruct (test_list s !! th) as [xs|]; [|done]. cbn.
      by rewrite without_unlink.
    + intros f. rewrite Hk. subst s1. ksimpl.
      destruct (decide (f = fh)) as [->|Hne].
      * rewrite lookup_delete_eq. rewrite (decide_True (P := fh ∈ fh :: n))
          by apply list_elem_of_here. by case_decide.
      * rewrite lookup_delete_ne by done.
        destruct (decide (f ∈ n)).
        -- rewrite decide_True; [done|]. by apply list_elem_of_further.
        -- rewrite decide_False; [done|]. by intros [?|?]%elem_of_cons.
    + by rewrite Htc.
    + by rewrite Hlk.
    + by rewrite Hcnt.
Qed.

Section without_hooks.
Variables (l : list addr) (s s' : kstate).
Hypothesis Hcases : ∀ a, cases s' !! a = without_case l <$> cases s !! a.
Hypothesis Hlists : ∀ th, test_list s' !! th = without l <$> test_list s !! th.
Hypothesis Hhooks :
  ∀ f, hooks s' !! f = if decide (f ∈ l) then None else hooks s !! f.
Hypothesis Hmap : test_cases s' = test_cases s.

Lemma handle_list_without th : handle_list s' th = without l (handle_list s th).
Proof.
  unfold handle_list. rewrite Hlists. by destruct (test_list s !! th).
Qed.

Lemma cases_without_inv a c' :
  cases s' !! a = Some c' →
  ∃ c, cases s !! a = Some c ∧ kmap_name c' = kmap_name c ∧
       fun_list c' = without l (fun_list c).
Proof.
  rewrite Hcases. destruct (cases s !! a) as [c|]; [|done].
  intros [= <-]. eauto.
Qed.

Lemma wf_without : wf s → wf s'.
Proof.
  intros [Hm Hname Hreg Hfl Hhl Hboth Hnd Hfnd Hone]. split.
  - intros n a. rewrite Hmap, Hcases. intros [c ->]%Hm. by eexists.
  - intros n a c'. rewrite Hmap.
    intros Hn (c & Hc & -> & _)%cases_without_inv. by apply (Hname n a).
  - intros a c' (c & Hc & -> & _)%cases_without_inv. rewrite Hmap.
    by apply Hreg.
  - intros a c' f (c & Hc & _ & Hfun)%cases_without_inv.
    rewrite Hfun. intros [Hnot Hin]%elem_of_without.
    destruct (Hfl a c f Hc Hin) as (h & Hh & Hth). exists h.
    rewrite Hhooks, decide_False by done. split; [done|].
    rewrite handle_list_without. by apply elem_of_without.
  - intros th f. rewrite handle_list_without.
    intros [Hnot Hin]%elem_of_without.
    destruct (Hhl th f Hin) as (h & Hh & Hth). exists h.
    by rewrite Hhooks, decide_False.
  - intros th f. rewrite handle_list_without.
    intros [Hnot Hin]%elem_of_without.
    destruct (Hboth th f Hin) as (a & c & Hc & Hf).
    exists a, (without_case l c). rewrite Hcases, Hc. split; [done|].
    by apply elem_of_without.
  - intros th. rewrite handle_list_without. unfold without.
    apply list.NoDup_filter, Hnd.
  - intros a c' (c & Hc & _ & ->)%cases_without_inv. unfold without.
    by apply list.NoDup_filter, (Hfnd a).
  - intros a1 c1 a2 c2 f (d1 & Hd1 & _ & ->)%cases_without_inv
      (d2 & Hd2 & _ & ->)%cases_without_inv
      [_ Hin1]%elem_of_without [_ Hin2]%elem_of_without.
    by apply (Hone a1 d1 a2 d2 f).
Qed.
End without_hooks.

Lemma register_all_ok rs : ∀ s,
  wf s → tc_lock s = false → Forall unhindered rs →
  ∃ s', register_all rs s = Ret tt s' ∧ wf s' ∧ tc_lock s' = false.
Proof.
  induction rs as [|r rs IH]; intros s Hwf Hlock Hrs.
  - by exists s.
  - apply Forall_cons_1 in Hrs as [(Hfc & Htc & Hinit & Hins) Hrs'].
    destruct (register_ok r s) as (s1 & E1 & Hwf1 & Hl1 & _); [done..| |].
    { by split. }
    destruct (IH s1) as (s' & E & Hwf' & Hl'); [done..|].
    exists s'. split; [|done]. cbn [register_all]. kunfold. by rewrite E1.
Qed.

Lemma state_after_wf rs :
  Forall unhindered rs →
  wf (state_after (register_all rs) kstate_init) ∧
  tc_lock (state_after (register_all rs) kstate_init) = false.
Proof.
  intros Hrs.
  destruct (register_all_ok rs kstate_init) as (s' & E & Hwf & Hl);
    [apply wf_init|done|done|].
  unfold state_after. by rewrite E.
Qed.

Lemma wf_busy_state : wf busy_state.
Proof. apply state_after_wf. by repeat constructor. Qed.

Lemma wf_one_hook_state : wf one_hook_state.
Proof.
  change one_hook_state
    with (state_after (register reg_ping) kstate_init).
  destruct (register_ok reg_ping kstate_init) as (s' & E & Hwf & _);
    [apply wf_init|done|by split|].
  unfold state_after. by rewrite E.
Qed.

(** Teardown takes exactly the owner's hooks: a hook of another owner
    stays on the list of its case. *)
Lemma tcase_cleanup_keeps_others th s s' a c f h :
  wf s → tc_lock s = false → _tcase_cleanup th s = Ret tt s' →
  cases s !! a = Some c → f ∈ fun_list c →
  hooks s !! f = Some h → fh_handle h ≠ th →
  hooks s' !! f = Some h ∧
  ∃ c', cases s' !! a = Some c' ∧ f ∈ fun_list c'.
Proof.
  intros Hwf Hlock Hrun Hc Hin Hh Hth.
  destruct (tcase_cleanup_loop_spec (handle_list s th) (set_tc_lock true s))
    as (s1 & Hloop & Hcs & _ & Hk & _).
  { intros f' Hf'. destruct (wf_hlist s Hwf th f' Hf') as (h' & ? & _). by exists h'. }
  { apply (wf_nodup s Hwf). }
  ksimpl.
  unfold _tcase_cleanup, mutex_lock, mutex_unlock in Hrun. kunfold.
  rewrite Hlock in Hrun.
  change (handle_list (set_tc_lock true s) th) with (handle_list s th) in Hrun.
  rewrite Hloop in Hrun. injection Hrun as <-. ksimpl.
  assert (Hnot : f ∉ handle_list s th).
  { intros Hon. destruct (wf_hlist s Hwf th f Hon) as (h' & ? & ?). congruence. }
  split.
  - by rewrite Hk, decide_False.
  - exists (without_case (handle_list s th) c). rewrite Hcs, Hc.
    split; [done|]. by apply elem_of_without.
Qed.

(** C8: the teardown of an owner returns; afterwards the owner's list is
    empty, no hook that pointed to the owner is on the [fun_list] of any
    case, whatever cases its hooks were under; the map of cases and so the
    case count are unchanged; with no hook on the owner's list the state is
    unchanged. *)
Theorem tcase_cleanup_removes_owner th s :
  wf s → tc_lock s = false →
  ∃ s', _tcase_cleanup th s = Ret tt s' ∧
    handle_list s' th = [] ∧
    (∀ a c f h, cases s' !! a = Some c → f ∈ fun_list c →
                hooks s !! f = Some h → fh_handle h ≠ th) ∧
    test_cases s' = test_cases s ∧
    ktf_case_count s' = ktf_case_count s ∧
    (handle_list s th = [] → s' = s) ∧
    wf s' ∧ tc_lock s' = false.
Proof.
  intros Hwf Hlock.
  destruct (tcase_cleanup_loop_spec (handle_list s th) (set_tc_lock true s))
    as (s1 & Hrun & Hc & Ht & Hk & Htc & Hlk & Hcnt).
  { intros f Hf. destruct (wf_hlist s Hwf th f Hf) as (h & Hh & _). by exists h. }
  { apply (wf_nodup s Hwf). }
  ksimpl.
  exists (set_tc_lock false s1). split_and!.
  - unfold _tcase_cleanup, mutex_lock, mutex_unlock. kunfold.
    rewrite Hlock.
    change (handle_list (set_tc_lock true s) th) with (handle_list s th).
    by rewrite Hrun.
  - rewrite (handle_list_without (handle_list s th) s) by done.
    apply without_self.
  - intros a c f h Ha Hin Hh Hth.
    destruct (cases_without_inv (handle_list s th) s _ Hc a c Ha)
      as (c0 & Hc0 & _ & Hfun).
    rewrite Hfun in Hin. apply elem_of_without in Hin as [Hnot Hin].
    destruct (wf_flist s Hwf a c0 f Hc0 Hin) as (h' & Hh' & Hon).
    rewrite Hh in Hh'. injection Hh' as <-. rewrite Hth in Hon. done.
  - done.
  - unfold ktf_case_count, ktf_map_size. ksimpl. by rewrite Htc.
  - intros Hnil. rewrite Hnil in Hrun. cbn in Hrun. injection Hrun as <-.
    destruct s; unfold set_tc_lock; ksimpl. by subst.
  - by apply (wf_without (handle_list s th) s).
  - done.
Qed.

Lemma tcase_cleanup_removes_owner_witness :
  ∃ s', _tcase_cleanup 1%nat busy_state = Ret tt s' ∧
    handle_list s' 1%nat = [] ∧
    (∀ a c f h, cases s' !! a = Some c → f ∈ fun_list c →
                hooks busy_state !! f = Some h → fh_handle h ≠ 1%nat) ∧
    test_cases s' = test_cases busy_state ∧
    ktf_case_count s' = ktf_case_count busy_state ∧
    (handle_list busy_state 1%nat = [] → s' = busy_state) ∧
    wf s' ∧ tc_lock s' = false.
Proof.
  apply (tcase_cleanup_removes_owner 1%nat busy_state).
  - apply wf_busy_state.
  - vm_compute; reflexivity.
Defined.

(** The scenario of the spec: a case stays registered, empty, after the
    teardown of its only owner, and shutdown then succeeds. *)
Example teardown_then_shutdown :
  ∃ s1 s2, _tcase_cleanup 1%nat one_hook_state = Ret tt s1 ∧
    ktf_case_count s1 = 1%nat ∧ case_iteration s1 "basic" = [] ∧
    ktf_cleanup s1 = Ret 0 s2 ∧ ktf_case_count s2 = 0%nat ∧ cases s2 = ∅.
Proof.
  eexists _, _. split; [vm_compute; reflexivity|].
  split; [vm_compute; reflexivity|]. split; [vm_compute; reflexivity|].
  split; [vm_compute; reflexivity|]. split; vm_compute; reflexivity.
Qed.

(** ** [ktf_cleanup] *)

(** The scan changes nothing. *)
Lemma cleanup_scan_state l : ∀ s b s',
  ktf_cleanup_scan l s = Ret b s' → s' = s.
Proof.
  induction l as [|e l IH]; intros s b s'; cbn [ktf_cleanup_scan].
  - by intros [= _ <-].
  - unfold load_case, load_hook. kunfold.
    destruct (cases s !! e.2) as [c|]; [|done].
    destruct (fun_list c) as [|fh ?]; [apply IH|].
    destruct (hooks s !! fh); [|done]. by intros [= _ <-].
Qed.

(** On live cases with live hooks the scan returns, and says whether some
    list has a first entry. *)
Lemma cleanup_scan_spec l : ∀ s,
  (∀ e, e ∈ l → ∃ c, cases s !! e.2 = Some c ∧
                 ∀ f, f ∈ fun_list c → is_Some (hooks s !! f)) →
  ∃ b, ktf_cleanup_scan l s = Ret b s ∧
    (b = true ↔ ∃ e c, e ∈ l ∧ cases s !! e.2 = Some c ∧ fun_list c ≠ []).
Proof.
  induction l as [|e l IH]; intros s Hlive; cbn [ktf_cleanup_scan].
  - exists false. split; [done|]. split; [done|].
    by intros (e & c & ?%elem_of_nil & _).
  - destruct (Hlive e) as (c & Hc & Hhooks); [apply list_elem_of_here|].
    unfold load_case, load_hook. kunfold. rewrite Hc.
    destruct (fun_list c) as [|fh fl] eqn:Hfun.
    + destruct (IH s) as (b & Hrun & Hb).
      { intros e' He'. apply Hlive. by apply list_elem_of_further. }
      exists b. split; [done|]. rewrite Hb. split.
      * intros (e' & c' & He' & Hc' & Hne). exists e', c'.
        split; [by apply list_elem_of_further|done].
      * intros (e' & c' & [->|He']%elem_of_cons & Hc' & Hne).
        -- rewrite Hc in Hc'. injection Hc' as <-. by rewrite Hfun in Hne.
        -- by exists e', c'.
    + destruct (Hhooks fh) as [h Hh]; [apply list_elem_of_here|].
      rewrite Hh. exists true. split; [done|]. split; [|done].
      intros _. exists e, c. split; [apply list_elem_of_here|].
      split; [done|]. by rewrite Hfun.
Qed.

Lemma stranded_or_empty s : all_empty s ↔ ¬ stranded s.
Proof.
  split.
  - intros Hall (n & a & c & Hn & Ha & Hne). by apply Hne, (Hall n a c).
  - intros Hno n a c Hn Ha. destruct (fun_list c) as [|f fl] eqn:Hfun; [done|].
    destruct Hno. exists n, a, c. by rewrite Hfun.
Qed.

Lemma delete_all_lookup (l : list (string * addr)) (cs : gmap addr ktf_case) a :
  foldr (λ e m, delete e.2 m) cs l !! a
  = if decide (a ∈ l.*2) then None else cs !! a.
Proof.
  induction l as [|e l IH]; cbn [foldr fmap list_fmap].
  - rewrite decide_False; [done|apply not_elem_of_nil].
  - destruct (decide (a = e.2)) as [->|Hne].
    + rewrite lookup_delete_eq, decide_True; [done|apply list_elem_of_here].
    + rewrite lookup_delete_ne, IH by done.
      destruct (decide (a ∈ l.*2)).
      * rewrite decide_True; [done|]. by apply list_elem_of_further.
      * rewrite decide_False; [done|]. by intros [?|?]%elem_of_cons.
Qed.

(** The two ways out of [ktf_cleanup]. *)
Lemma ktf_cleanup_spec s :
  wf s → tc_lock s = false →
  (stranded s ∧ ktf_cleanup s = Ret (- EBUSY) (set_tc_lock true s)) ∨
  (all_empty s ∧
   ∃ s', ktf_cleanup s = Ret 0 s' ∧ test_cases s' = ∅ ∧ cases s' = ∅ ∧
     hooks s' = hooks s ∧ test_list s' = test_list s ∧
     assert_cnt s' = assert_cnt s ∧ tc_lock s' = false).
Proof.
  intros Hwf Hlock.
  destruct (cleanup_scan_spec (map_to_list (test_cases s)) (set_tc_lock true s))
    as (b & Hrun & Hb).
  { intros [n a] Hin%elem_of_map_to_list. ksimpl.
    destruct (wf_map s Hwf n a Hin) as [c Hc]. exists c. split; [done|].
    intros f Hf. destruct (wf_flist s Hwf a c f Hc Hf) as (h & Hh & _).
    by exists h. }
  assert (Hstr : b = true ↔ stranded s).
  { rewrite Hb. unfold stranded. ksimpl. split.
    - intros ([n a] & c & Hin%elem_of_map_to_list & Hc & Hne). by exists n, a, c.
    - intros (n & a & c & Hn & Hc & Hne). exists (n, a), c.
      split; [by apply elem_of_map_to_list|done]. }
  unfold ktf_cleanup, mutex_lock, mutex_unlock, ktf_map_delete_all. kunfold.
  rewrite Hlock. ksimpl. rewrite Hrun. destruct b.
  - left. split; [by apply Hstr|done].
  - right. split.
    + apply stranded_or_empty. intros H%Hstr. done.
    + eexists. split; [done|]. ksimpl. split_and!; try done.
      apply map_eq. intros a. rewrite delete_all_lookup, lookup_empty.
      case_decide as Hin; [done|].
      destruct (cases s !! a) as [c|] eqn:Hc; [|done]. destruct Hin.
      apply (list_elem_of_fmap_2 snd _ (kmap_name c, a)).
      apply elem_of_map_to_list. by apply (wf_reg s Hwf).
Qed.

(** Shutdown keeps the invariant, on both ways out. *)
Lemma ktf_cleanup_wf s v s' :
  wf s → ktf_cleanup s = Ret v s' → wf s'.
Proof.
  intros Hwf Hrun.
  destruct (tc_lock s) eqn:Hlock.
  { unfold ktf_cleanup, mutex_lock in Hrun. kunfold. by rewrite Hlock in Hrun. }
  destruct (ktf_cleanup_spec s Hwf Hlock)
    as [[_ E]|[Hall (s1 & E & Hmap & Hcs & Hhk & Htl & _)]];
    rewrite E in Hrun; injection Hrun as <- <-.
  - by destruct Hwf.
  - destruct Hwf as [Hm Hname Hreg Hfl Hhl Hboth Hnd Hfnd Hone].
    unfold handle_list in *.
    split; unfold handle_list; rewrite ?Hmap, ?Hcs, ?Hhk, ?Htl;
      try (intros *; by rewrite lookup_empty); try done.
    intros th f Hin. destruct (Hboth th f Hin) as (a & c & Hc & Hf).
    rewrite (Hall (kmap_name c) a c) in Hf by auto.
    by apply elem_of_nil in Hf.
Qed.

(** The data of the registry on both ways out: from a well-formed state with
    the lock free, [ktf_cleanup] returns [-EBUSY] whenever some registered
    case has a hook, and then the cases, the hooks, the map, the lists of
    the owners and the counter are the ones before the call; it returns 0
    with an empty map and no case left exactly when the list of every
    registered case is empty.  The lock is not among what is kept. *)
Theorem ktf_cleanup_busy_or_done s :
  wf s → tc_lock s = false →
  (stranded s →
   ∃ s', ktf_cleanup s = Ret (- EBUSY) s' ∧
     cases s' = cases s ∧ hooks s' = hooks s ∧ test_cases s' = test_cases s ∧
     test_list s' = test_list s ∧ assert_cnt s' = assert_cnt s) ∧
  (all_empty s ↔
   ∃ s', ktf_cleanup s = Ret 0 s' ∧ test_cases s' = ∅ ∧ cases s' = ∅).
Proof.
  intros Hwf Hlock.
  destruct (ktf_cleanup_spec s Hwf Hlock)
    as [[Hstr Hrun]|[Hall (s' & Hrun & Hmap & Hcs & _)]].
  - split.
    + intros _. by exists (set_tc_lock true s).
    + split.
      * intros Hall%stranded_or_empty. done.
      * rewrite Hrun. by intros (s' & [=] & _).
  - split.
    + intros Hstr. by apply stranded_or_empty in Hall.
    + split; [|done]. intros _. by exists s'.
Qed.

Lemma ktf_cleanup_busy_or_done_witness :
  (∃ s', ktf_cleanup busy_state = Ret (- EBUSY) s' ∧
     cases s' = cases busy_state ∧ hooks s' = hooks busy_state ∧
     test_cases s' = test_cases busy_state ∧
     test_list s' = test_list busy_state ∧
     assert_cnt s' = assert_cnt busy_state) ∧
  (all_empty kstate_init ↔
   ∃ s', ktf_cleanup kstate_init = Ret 0 s' ∧ test_cases s' = ∅ ∧ cases s' = ∅).
Proof.
  split.
  - apply (ktf_cleanup_busy_or_done busy_state).
    + apply wf_busy_state.
    + vm_compute; reflexivity.
    + exists "basic", 1%positive.
      eexists. split; [vm_compute; reflexivity|].
      split; [vm_compute; reflexivity|]. discriminate.
  - apply (ktf_cleanup_busy_or_done kstate_init).
    + apply wf_init.
    + reflexivity.
Defined.

(** C10: a call of [ktf_cleanup] that returns [-EBUSY] returns with
    [tc_lock] held, while its successful return, and every return of
    [_tcase_add_test] and of [_tcase_cleanup] entered with the lock free,
    leave the lock free. *)
Theorem ktf_cleanup_busy_holds_lock s :
  (∀ s', ktf_cleanup s = Ret (- EBUSY) s' → tc_lock s' = true) ∧
  (∀ s', ktf_cleanup s = Ret 0 s' → tc_lock s' = false) ∧
  (∀ r s', tc_lock s = false → register r s = Ret tt s' → tc_lock s' = false) ∧
  (∀ th s', _tcase_cleanup th s = Ret tt s' → tc_lock s' = false).
Proof.
  split_and!.
  - intros s'. unfold ktf_cleanup, mutex_lock, mutex_unlock, ktf_map_delete_all.
    kunfold. destruct (tc_lock s); [done|].
    destruct (ktf_cleanup_scan _ _) as [b s1| |] eqn:Hscan; [|done..].
    apply cleanup_scan_state in Hscan as ->.
    destruct b; [|done]. by intros [= <-].
  - intros s'. unfold ktf_cleanup, mutex_lock, mutex_unlock, ktf_map_delete_all.
    kunfold. destruct (tc_lock s); [done|].
    destruct (ktf_cleanup_scan _ _) as [b s1| |] eqn:Hscan; [|done..].
    destruct b; [done|]. by intros [= <-].
  - intros r s' Hlock. unfold register, _tcase_add_test, kmalloc_hook,
      mutex_lock, mutex_unlock, kfree_hook, list_add_flist, list_add_hlist,
      load_case, store_case.
    kunfold. destruct (kmalloc_fc (reg_choice r)); [|by intros [= <-]].
    ksimpl. rewrite Hlock.
    destruct (ktf_case_find_create _ _ _) as [[a|] s1| |]; [| |done..].
    + ksimpl. destruct (cases s1 !! a); [|done]. by intros [= <-].
    + by intros [= <-].
  - intros th s'. unfold _tcase_cleanup, mutex_lock, mutex_unlock. kunfold.
    destruct (tc_lock s); [done|].
    destruct (tcase_cleanup_loop _ _) as [[] s1| |]; [|done..].
    by intros [= <-].
Qed.

Lemma ktf_cleanup_busy_holds_lock_witness :
  ktf_cleanup one_hook_state = Ret (- EBUSY) (set_tc_lock true one_hook_state) ∧
  tc_lock (set_tc_lock true one_hook_state) = true.
Proof.
  assert (H : ktf_cleanup one_hook_state
              = Ret (- EBUSY) (set_tc_lock true one_hook_state))
    by (vm_compute; reflexivity).
  split; [exact H|].
  exact (proj1 (ktf_cleanup_busy_holds_lock one_hook_state) _ H).
Defined.

(** With the lock held, as a busy return leaves it, every call that takes
    the lock waits for ever: the teardown that the busy return asks for, a
    registration that got its hook, and a second shutdown. *)
Lemma held_lock_blocks s :
  tc_lock s = true →
  (∀ th, _tcase_cleanup th s = Hang) ∧
  (∀ r, kmalloc_fc (reg_choice r) = true → register r s = Hang) ∧
  ktf_cleanup s = Hang.
Proof.
  intros Hlock. split_and!.
  - intros th. unfold _tcase_cleanup, mutex_lock. kunfold. by rewrite Hlock.
  - intros r Hfc. by apply add_test_locked.
  - unfold ktf_cleanup, mutex_lock. kunfold. by rewrite Hlock.
Qed.

Example busy_then_teardown_hangs :
  (ktf_cleanup;; _tcase_cleanup 1%nat) one_hook_state = Hang.
Proof. vm_compute. reflexivity. Qed.

(** * Every state the module goes through is well formed *)

Lemma register_inv r s s' :
  wf s → register r s = Ret tt s' → wf s' ∧ assert_cnt s' = assert_cnt s.
Proof.
  intros Hwf. unfold register.
  destruct (kmalloc_fc (reg_choice r)) eqn:Hfc; last first.
  { rewrite add_test_no_hook by done. by intros [= <-]. }
  destruct (tc_lock s) eqn:Hlock.
  { by rewrite add_test_locked. }
  destruct (test_cases s !! td_tclass (reg_td r)) as [a|] eqn:Hname.
  { destruct (wf_map s Hwf _ _ Hname) as [c Hc].
    rewrite (add_test_found _ _ _ _ _ _ _ s a c) by done. intros [= <-].
    split; [|done]. apply wf_linked; auto using fresh_hook_free. }
  destruct (kmalloc_tc (reg_choice r)) eqn:Htc; last first.
  { rewrite add_test_no_case by auto. done. }
  destruct (decide (elem_init_ret (reg_choice r) = 0)) as [Hinit|Hinit]; last first.
  { rewrite add_test_no_case by auto. done. }
  destruct (decide (map_insert_ret (reg_choice r) = 0)) as [Hins|Hins].
  - rewrite add_test_new by done. intros [= <-]. split; [|done].
    pose proof (fresh_case_free s) as Hfr.
    apply wf_linked; auto.
    + by apply wf_with_case.
    + apply (fresh_hook_free s).
    + apply lookup_insert_eq.
  - rewrite add_test_unresolved by done. by intros [= <-].
Qed.

Lemma tcase_cleanup_inv th s s' :
  wf s → _tcase_cleanup th s = Ret tt s' → wf s' ∧ assert_cnt s' = assert_cnt s.
Proof.
  intros Hwf Hrun. destruct (tc_lock s) eqn:Hlock.
  { unfold _tcase_cleanup, mutex_lock in Hrun. kunfold. by rewrite Hlock in Hrun. }
  destruct (tcase_cleanup_loop_spec (handle_list s th) (set_tc_lock true s))
    as (s1 & Hloop & Hcs & Htl & Hk & Hmap & _ & Hcnt).
  { intros f Hf. destruct (wf_hlist s Hwf th f Hf) as (h & ? & _). by exists h. }
  { apply (wf_nodup s Hwf). }
  unfold _tcase_cleanup, mutex_lock, mutex_unlock in Hrun. kunfold.
  rewrite Hlock in Hrun.
  change (handle_list (set_tc_lock true s) th) with (handle_list s th) in Hrun.
  rewrite Hloop in Hrun. injection Hrun as <-. ksimpl.
  split; [|done]. by apply (wf_without (handle_list s th) s).
Qed.

Lemma ktf_cleanup_cnt s v s' :
  ktf_cleanup s = Ret v s' → assert_cnt s' = assert_cnt s.
Proof.
  unfold ktf_cleanup, mutex_lock, mutex_unlock, ktf_map_delete_all. kunfold.
  destruct (tc_lock s); [done|].
  destruct (ktf_cleanup_scan _ _) as [b s1| |] eqn:Hscan; [|done..].
  apply cleanup_scan_state in Hscan as ->.
  destruct b; by intros [= _ <-].
Qed.

Lemma wf_set_assert_cnt n s : wf s → wf (set_assert_cnt n s).
Proof. by intros []. Qed.

(** A report that returns has only moved the counter, within 32 bits. *)
Lemma report_state skb c v s s' :
  report skb c s = Ret v s' →
  ∃ n, 0 ≤ n < 2 ^ 32 ∧ s' = set_assert_cnt n s.
Proof.
  unfold report. destruct c as [found result file line text]. cbn.
  destruct (decide (result = 0)) as [->|Hres].
  - destruct found as [g|]; [|by rewrite fail_unless_no_buffer].
    destruct (decide (length text < MAX_PRINTF)%nat).
    + rewrite fail_unless_fail_gen by done. intros [= _ <-].
      exists 0. split; [lia|done].
    + rewrite fail_unless_overrun by lia. done.
  - rewrite fail_unless_pass by done. intros [= _ <-].
    eexists. split; [apply u32_range|done].
Qed.

(** The hypotheses of the theorems on the registry and on the reports hold
    in every state the module can be in. *)
Theorem reachable_wf s : reachable s → wf s ∧ 0 ≤ assert_cnt s < 2 ^ 32.
Proof.
  induction 1 as [|r s s' _ [IH Hc] Hrun|th s s' _ [IH Hc] Hrun
                 |v s s' _ [IH Hc] Hrun|c skb v s s' _ [IH Hc] Hrun].
  - split; [apply wf_init|cbn; lia].
  - destruct (register_inv r s s' IH Hrun) as [? ->]. done.
  - destruct (tcase_cleanup_inv th s s' IH Hrun) as [? ->]. done.
  - rewrite (ktf_cleanup_cnt s v s' Hrun).
    split; [by apply (ktf_cleanup_wf s v)|done].
  - apply report_state in Hrun as (n & Hn & ->).
    split; [by apply wf_set_assert_cnt|done].
Qed.

(** * More on the reports *)

Lemma stat_sum_app l1 l2 : stat_sum (l1 ++ l2) = stat_sum l1 + stat_sum l2.
Proof.
  induction l1 as [|[[] v|t str] l1 IH]; cbn [app stat_sum]; lia.
Qed.

Lemma stat_sum_failure_record c : stat_sum (failure_record c) = 0.
Proof. reflexivity. Qed.

Lemma passes_nonneg calls : 0 ≤ passes calls.
Proof. induction calls as [|c calls IH]; cbn; [lia|]. case_decide; lia. Qed.

Lemma string_length_of_list (l : list ascii) :
  String.length (string_of_list_ascii l) = length l.
Proof. induction l as [|c l IH]; cbn; [done|]. by rewrite IH. Qed.

(** A failing call that returns had its buffer and a text that fits. *)
Lemma fail_unless_returns_inv found skb file line text s v s' :
  _fail_unless found skb 0 file line text s = Ret v s' →
  ∃ g, found = Some g ∧ (length text < MAX_PRINTF)%nat.
Proof.
  destruct found as [g|]; [|by rewrite fail_unless_no_buffer].
  destruct (decide (length text < MAX_PRINTF)%nat); [eauto|].
  rewrite fail_unless_overrun by lia. done.
Qed.

(** X3: a flush leaves the counter at zero and a second flush right after
    it changes nothing and emits nothing; the first one emits the counter
    when it is not zero and nothing otherwise. *)
Theorem flush_assert_cnt_idempotent skb s :
  ∃ skb1 s1, flush_assert_cnt skb s = Ret skb1 s1 ∧
    assert_cnt s1 = 0 ∧
    skb1 = skb ++ (if decide (assert_cnt s = 0) then []
                   else [NlaU32 KTF_A_STAT (u32 (assert_cnt s))]) ∧
    flush_assert_cnt skb1 s1 = Ret skb1 s1.
Proof.
  unfold flush_assert_cnt. kunfold.
  destruct (decide (assert_cnt s = 0)) as [H0|H0].
  - exists skb, s. rewrite !decide_False by lia.
    split_and!; [done|done|by rewrite app_nil_r|done].
  - eexists _, _. rewrite decide_True by done. split; [done|]. ksimpl.
    rewrite decide_False by lia. done.
Qed.

(** X4: as long as the counter does not wrap, no pass is lost and none is
    counted twice: after a run of reports that returns, the counts put into
    the message plus the counter make up the counts and the counter before
    the run plus the number of passing calls. *)
Theorem reports_conserve_passes calls : ∀ skb s skb' s',
  0 ≤ assert_cnt s →
  assert_cnt s + passes calls < 2 ^ 32 →
  run_reports calls skb s = Ret skb' s' →
  stat_sum skb' + assert_cnt s' = stat_sum skb + assert_cnt s + passes calls.
Proof.
  induction calls as [|c calls IH]; intros skb s skb' s' Hpos Hmax.
  - cbn. intros [= <- <-]. lia.
  - cbn [run_reports passes] in *. unfold report. kunfold.
    pose proof (passes_nonneg calls) as Hrest.
    destruct c as [found result file line text].
    cbn [rc_found rc_result rc_file rc_line rc_text] in *.
    destruct (decide (result ≠ 0)) as [Hres|Hres].
    + rewrite fail_unless_pass by done. cbn [snd]. intros Hrun.
      apply IH in Hrun; cbn [assert_cnt set_assert_cnt] in *;
        rewrite ?u32_small in * by lia; lia.
    + assert (result = 0) as -> by lia.
      destruct (_fail_unless found skb 0 file line text s) as [v s1| |] eqn:E;
        [|done..].
      destruct (fail_unless_returns_inv _ _ _ _ _ _ _ _ E) as (g & -> & Htext).
      rewrite fail_unless_fail in E by (done || lia). injection E as <- <-.
      cbn [snd]. intros Hrun.
      apply IH in Hrun; cbn [assert_cnt set_assert_cnt] in *; [|lia..].
      rewrite Hrun, !stat_sum_app, stat_sum_failure_record.
      unfold flushed_count. case_decide; cbn [stat_sum]; lia.
Qed.

Lemma reports_conserve_passes_witness :
  ∃ skb' s', run_reports mixed_run [] kstate_init = Ret skb' s' ∧
    stat_sum skb' + assert_cnt s'
    = stat_sum [] + assert_cnt kstate_init + passes mixed_run.
Proof.
  eexists _, _. split; [vm_compute; reflexivity|].
  apply (reports_conserve_passes mixed_run [] kstate_init).
  - vm_compute; discriminate.
  - vm_compute; reflexivity.
  - vm_compute; reflexivity.
Defined.

(** X5: the text of a failure record is never longer than
    [MAX_PRINTF - 2] characters: a failing call that returns has put the
    [KTF_A_STR] attribute last, with at most that many characters, and with
    the whole text when the text has no NUL and is not longer. *)
Theorem failure_message_bounded found skb file line text s v skb' s' :
  _fail_unless found skb 0 file line text s = Ret (v, skb') s' →
  ∃ pre msg, skb' = pre ++ [NlaString KTF_A_STR msg] ∧
    (String.length msg ≤ MAX_PRINTF - 2)%nat ∧
    (NUL ∉ text → (length text ≤ MAX_PRINTF - 2)%nat →
     msg = string_of_list_ascii text).
Proof.
  intros Hrun.
  destruct (fail_unless_returns_inv _ _ _ _ _ _ _ _ Hrun) as (g & -> & Htext).
  rewrite fail_unless_fail_gen in Hrun by done. injection Hrun as _ <- _.
  unfold failure_record. cbn [rc_file rc_line rc_text].
  eexists (_ ++ [_; _; _]), _. split.
  - rewrite <- app_assoc. reflexivity.
  - split.
    + rewrite string_length_of_list. apply bounded_text_length.
    + intros Hnul Hlen. by rewrite bounded_text_id.
Qed.

Lemma failure_message_bounded_witness :
  ∃ pre msg,
    [NlaU32 KTF_A_STAT 0; NlaString KTF_A_FILE "t.c"; NlaU32 KTF_A_NUM 42;
     NlaString KTF_A_STR "timeout"]
    = pre ++ [NlaString KTF_A_STR msg] ∧
    (String.length msg ≤ MAX_PRINTF - 2)%nat ∧
    (NUL ∉ list_ascii_of_string "timeout" →
     (length (list_ascii_of_string "timeout") ≤ MAX_PRINTF - 2)%nat →
     msg = string_of_list_ascii (list_ascii_of_string "timeout")).
Proof.
  apply (failure_message_bounded (Some []) [] (list_ascii_of_string "t.c") 42
           (list_ascii_of_string "timeout") kstate_init 0 _ kstate_init).
  vm_compute; reflexivity.
Defined.

(** * More on the registry *)

(** X1: [ktf_case_create] never registers anything and leaks nothing: either
    it returns a new live case with the name given and an empty list, at an
    address that was free, or, when its [kmalloc] or the initialisation of
    the map element fails, it returns NULL in the state it was called in,
    the case freed again. *)
Theorem case_create_outcomes k name s :
  (kmalloc_tc k = true ∧ elem_init_ret k = 0 ∧
   ∃ a s1, ktf_case_create k name s = Ret (Some a) s1 ∧
     cases s !! a = None ∧
     cases s1 = <[a := mk_ktf_case name []]> (cases s) ∧
     test_cases s1 = test_cases s ∧ hooks s1 = hooks s ∧
     test_list s1 = test_list s) ∨
  ((kmalloc_tc k = false ∨ elem_init_ret k ≠ 0) ∧
   ktf_case_create k name s = Ret None s).
Proof.
  destruct (kmalloc_tc k) eqn:Htc; [|right; split; [auto|]; by apply case_create_fails; auto].
  destruct (decide (elem_init_ret k = 0)) as [Hinit|Hinit].
  - left. split; [done|]. split; [done|].
    eexists _, _. split; [by apply case_create_ok|].
    split; [apply fresh_case_free|done].
  - right. split; [auto|]. apply case_create_fails; auto.
Qed.

(** X2: a case is found or created once: after a call of
    [ktf_case_find_create] that returned a case, [ktf_case_find] and every
    further [ktf_case_find_create] of the name return the same case and
    change nothing, whatever the allocator would do; the case count has
    grown by one if the name was new and not at all otherwise. *)
Theorem find_create_twice k1 k2 name s a s1 :
  ktf_case_find_create k1 name s = Ret (Some a) s1 →
  ktf_case_find name s1 = Ret (Some a) s1 ∧
  ktf_case_find_create k2 name s1 = Ret (Some a) s1 ∧
  ktf_case_count s1
  = (ktf_case_count s + if test_cases s !! name is Some _ then 0 else 1)%nat.
Proof.
  intros Hrun.
  assert (Hpost : test_cases s1 !! name = Some a ∧
            ktf_case_count s1
            = (ktf_case_count s + if test_cases s !! name is Some _ then 0 else 1)%nat).
  { destruct (test_cases s !! name) as [a0|] eqn:Hname.
    - rewrite (find_create_found _ _ a0) in Hrun by done.
      injection Hrun as <- <-. split; [done|lia].
    - destruct (kmalloc_tc k1) eqn:Htc; last first.
      { rewrite find_create_no_case in Hrun by auto. done. }
      destruct (decide (elem_init_ret k1 = 0)) as [Hinit|Hinit]; last first.
      { rewrite find_create_no_case in Hrun by auto. done. }
      destruct (decide (map_insert_ret k1 = 0)) as [Hins|Hins]; last first.
      { rewrite find_create_insert_fails in Hrun by done. done. }
      rewrite find_create_new in Hrun by done. injection Hrun as <- <-.
      ksimpl. split; [apply lookup_insert_eq|].
      unfold ktf_case_count, ktf_map_size. ksimpl.
      rewrite map_size_insert_None by done. lia. }
  destruct Hpost as [Hfound Hcount].
  split; [|split; [by apply find_create_found|done]].
  unfold ktf_case_find, ktf_map_find_entry. by rewrite Hfound.
Qed.

Lemma find_create_twice_witness :
  ∃ a s1, ktf_case_find_create all_ok "basic" kstate_init = Ret (Some a) s1 ∧
    ktf_case_find "basic" s1 = Ret (Some a) s1 ∧
    ktf_case_find_create (mk_kchoice false false 1 1) "basic" s1
    = Ret (Some a) s1 ∧
    ktf_case_count s1
    = (ktf_case_count kstate_init
       + if test_cases kstate_init !! "basic" is Some _ then 0 else 1)%nat.
Proof.
  eexists _, _. split; [vm_compute; reflexivity|].
  apply (find_create_twice all_ok (mk_kchoice false false 1 1) "basic" kstate_init).
  vm_compute; reflexivity.
Defined.

(** X6: a registration that gets its hook and its case can be looked up
    right after: [ktf_case_find] returns the case of that name, the new hook
    is the first of its list and holds what the call was given, and the
    case count has grown by one exactly when the name was new. *)
Theorem register_then_find r s :
  wf s → tc_lock s = false → can_register s r →
  ∃ s' a c f rest, register r s = Ret tt s' ∧
    ktf_case_find (td_tclass (reg_td r)) s' = Ret (Some a) s' ∧
    cases s' !! a = Some c ∧ kmap_name c = td_tclass (reg_td r) ∧
    fun_list c = f :: rest ∧
    hooks s !! f = None ∧ hooks s' !! f = Some (hook_of r) ∧
    ktf_case_count s'
    = (ktf_case_count s + if test_cases s !! td_tclass (reg_td r) is Some _ then 0 else 1)%nat.
Proof.
  intros Hwf Hlock [Hfc Hnew]. unfold register, hook_of.
  pose proof (fresh_hook_free s) as Hfree.
  destruct (test_cases s !! td_tclass (reg_td r)) as [a|] eqn:Hname.
  - destruct (wf_map s Hwf _ _ Hname) as [c Hc].
    eexists _, a, _, _, _. split; [by apply (add_test_found _ _ _ _ _ _ _ s a c)|].
    unfold ktf_case_find, ktf_map_find_entry, linked. ksimpl.
    rewrite Hname, !lookup_insert_eq.
    split_and!; try done.
    cbn [kmap_name]. by apply (wf_name s Hwf _ a c).
  - destruct Hnew as (Htc & Hinit & Hins); [done|].
    eexists _, _, _, _, _. split; [by apply add_test_new|].
    unfold ktf_case_find, ktf_map_find_entry, linked, with_case. ksimpl.
    rewrite !lookup_insert_eq.
    split_and!; try done.
    unfold ktf_case_count, ktf_map_size. ksimpl.
    rewrite map_size_insert_None by done. lia.
Qed.

Lemma register_then_find_witness :
  ∃ s' a c f rest, register reg_pong one_hook_state = Ret tt s' ∧
    ktf_case_find (td_tclass (reg_td reg_pong)) s' = Ret (Some a) s' ∧
    cases s' !! a = Some c ∧ kmap_name c = td_tclass (reg_td reg_pong) ∧
    fun_list c = f :: rest ∧
    hooks one_hook_state !! f = None ∧ hooks s' !! f = Some (hook_of reg_pong) ∧
    ktf_case_count s'
    = (ktf_case_count one_hook_state
       + if test_cases one_hook_state !! td_tclass (reg_td reg_pong) is Some _
         then 0 else 1)%nat.
Proof.
  apply (register_then_find reg_pong one_hook_state).
  - apply wf_one_hook_state.
  - vm_compute; reflexivity.
  - split; [reflexivity|]. intros H. vm_compute in H. discriminate.
Defined.

Lemma case_iteration_linked_other f h a c th name n s :
  wf s → hooks s !! f = None →
  test_cases s !! name = Some a → cases s !! a = Some c → n ≠ name →
  case_iteration (linked f h a c th s) n = case_iteration s n.
Proof.
  intros Hwf Hf Hname Ha Hn. unfold case_iteration, linked. ksimpl.
  destruct (test_cases s !! n) as [a'|] eqn:Hn'; [|done].
  assert (a ≠ a').
  { intros <-. apply Hn. rewrite <- (wf_name s Hwf n a c) by done.
    by apply (wf_name s Hwf name a c). }
  rewrite lookup_insert_ne by done.
  destruct (cases s !! a') as [c'|] eqn:Hc'; [|done].
  apply omap_agree. intros x Hx.
  destruct (wf_flist s Hwf a' c' x Hc' Hx) as (h' & ? & ?).
  apply lookup_insert_ne. congruence.
Qed.

Lemma case_iteration_with_case name a n s :
  wf s → cases s !! a = None → n ≠ name →
  case_iteration (with_case name a s) n = case_iteration s n.
Proof.
  intros Hwf Ha Hn. unfold case_iteration, with_case. ksimpl.
  rewrite lookup_insert_ne by done.
  destruct (test_cases s !! n) as [a'|] eqn:Hn'; [|done].
  destruct (wf_map s Hwf n a' Hn') as [c' Hc'].
  rewrite lookup_insert_ne by congruence. done.
Qed.

(** X7: a registration touches one case only: whatever the call does, if
    it returns, what an iteration of a case of another name visits is what
    it visited before. *)
Theorem register_other_cases_unchanged r s s' n :
  wf s → register r s = Ret tt s' → n ≠ td_tclass (reg_td r) →
  case_iteration s' n = case_iteration s n.
Proof.
  intros Hwf Hrun Hn. unfold register in Hrun.
  destruct (kmalloc_fc (reg_choice r)) eqn:Hfc; last first.
  { rewrite add_test_no_hook in Hrun by done. by injection Hrun as <-. }
  destruct (tc_lock s) eqn:Hlock.
  { by rewrite add_test_locked in Hrun. }
  destruct (test_cases s !! td_tclass (reg_td r)) as [a|] eqn:Hname.
  { destruct (wf_map s Hwf _ _ Hname) as [c Hc].
    rewrite (add_test_found _ _ _ _ _ _ _ s a c) in Hrun by done.
    injection Hrun as <-.
    by apply (case_iteration_linked_other _ _ _ _ _ (td_tclass (reg_td r)));
      auto using fresh_hook_free. }
  destruct (kmalloc_tc (reg_choice r)) eqn:Htc; last first.
  { rewrite add_test_no_case in Hrun by auto. done. }
  destruct (decide (elem_init_ret (reg_choice r) = 0)) as [Hinit|Hinit]; last first.
  { rewrite add_test_no_case in Hrun by auto. done. }
  destruct (decide (map_insert_ret (reg_choice r) = 0)) as [Hins|Hins].
  - rewrite add_test_new in Hrun by done. injection Hrun as <-.
    pose proof (fresh_case_free s) as Hfr.
    rewrite (case_iteration_linked_other _ _ _ _ _ (td_tclass (reg_td r))).
    + by apply case_iteration_with_case.
    + by apply wf_with_case.
    + apply (fresh_hook_free s).
    + apply lookup_insert_eq.
    + apply lookup_insert_eq.
    + done.
  - rewrite add_test_unresolved in Hrun by done. by injection Hrun as <-.
Qed.

Lemma register_other_cases_unchanged_witness :
  case_iteration (state_after (register reg_echo) one_hook_state) "basic"
  = case_iteration one_hook_state "basic".
Proof.
  apply (register_other_cases_unchanged reg_echo one_hook_state).
  - apply wf_one_hook_state.
  - vm_compute; reflexivity.
  - vm_compute; discriminate.
Defined.

(** ** Teardown, once more *)

(** The state a teardown leaves, list by list. *)
Lemma tcase_cleanup_result th s :
  wf s → tc_lock s = false →
  ∃ s', _tcase_cleanup th s = Ret tt s' ∧
    (∀ a, cases s' !! a = without_case (handle_list s th) <$> cases s !! a) ∧
    (∀ th', test_list s' !! th'
            = without (handle_list s th) <$> test_list s !! th') ∧
    (∀ f, hooks s' !! f
          = if decide (f ∈ handle_list s th) then None else hooks s !! f) ∧
    test_cases s' = test_cases s ∧ tc_lock s' = false ∧
    assert_cnt s' = assert_cnt s.
Proof.
  intros Hwf Hlock.
  destruct (tcase_cleanup_loop_spec (handle_list s th) (set_tc_lock true s))
    as (s1 & Hloop & Hcs & Htl & Hk & Hmap & _ & Hcnt).
  { intros f Hf. destruct (wf_hlist s Hwf th f Hf) as (h & ? & _). by exists h. }
  { apply (wf_nodup s Hwf). }
  exists (set_tc_lock false s1). split; [|by ksimpl].
  unfold _tcase_cleanup, mutex_lock, mutex_unlock. kunfold. rewrite Hlock.
  change (handle_list (set_tc_lock true s) th) with (handle_list s th).
  by rewrite Hloop.
Qed.

Lemma tcase_cleanup_no_hooks th s :
  tc_lock s = false → handle_list s th = [] → _tcase_cleanup th s = Ret tt s.
Proof.
  intros Hlock Hnil. unfold _tcase_cleanup, mutex_lock, mutex_unlock. kunfold.
  rewrite Hlock.
  change (handle_list (set_tc_lock true s) th) with (handle_list s th).
  rewrite Hnil. cbn. f_equal. destruct s; unfold set_tc_lock; ksimpl. by subst.
Qed.

(** X8: tearing an owner down twice is tearing it down once: the second
    call returns in the state the first one left. *)
Theorem tcase_cleanup_twice th s :
  wf s → tc_lock s = false →
  ∃ s', _tcase_cleanup th s = Ret tt s' ∧
        (_tcase_cleanup th;; _tcase_cleanup th) s = Ret tt s'.
Proof.
  intros Hwf Hlock.
  destruct (tcase_cleanup_result th s Hwf Hlock)
    as (s' & Hrun & Hcs & Htl & Hk & Hmap & Hlock' & _).
  exists s'. split; [done|]. unfold mbind at 1, K_bind at 1. rewrite Hrun.
  apply tcase_cleanup_no_hooks; [done|].
  rewrite (handle_list_without (handle_list s th) s) by done.
  apply without_self.
Qed.

Lemma tcase_cleanup_twice_witness :
  ∃ s', _tcase_cleanup 1%nat busy_state = Ret tt s' ∧
        (_tcase_cleanup 1%nat;; _tcase_cleanup 1%nat) busy_state = Ret tt s'.
Proof.
  apply (tcase_cleanup_twice 1%nat busy_state).
  - apply wf_busy_state.
  - vm_compute; reflexivity.
Defined.




(** ** No hook is lost *)

Lemma no_leak_linked f h a c th s :
  no_leak s → hooks s !! f = None → fh_handle h = th →
  no_leak (linked f h a c th s).
Proof.
  intros Hno Hf Hh f' h'. unfold linked at 1. ksimpl.
  unfold linked. rewrite handle_list_insert, lookup_insert.
  case_decide as Hff.
  - subst f'. intros [= <-]. rewrite decide_True by done. apply list_elem_of_here.
  - intros Hh'. apply Hno in Hh'. case_decide as Hth; [|done].
    rewrite Hth. by apply list_elem_of_further.
Qed.

Lemma register_no_leak r s s' :
  wf s → no_leak s → register r s = Ret tt s' → no_leak s'.
Proof.
  intros Hwf Hno. unfold register.
  destruct (kmalloc_fc (reg_choice r)) eqn:Hfc; last first.
  { rewrite add_test_no_hook by done. by intros [= <-]. }
  destruct (tc_lock s) eqn:Hlock.
  { by rewrite add_test_locked. }
  destruct (test_cases s !! td_tclass (reg_td r)) as [a|] eqn:Hname.
  { destruct (wf_map s Hwf _ _ Hname) as [c Hc].
    rewrite (add_test_found _ _ _ _ _ _ _ s a c) by done. intros [= <-].
    apply no_leak_linked; auto using fresh_hook_free. }
  destruct (kmalloc_tc (reg_choice r)) eqn:Htc; last first.
  { rewrite add_test_no_case by auto. done. }
  destruct (decide (elem_init_ret (reg_choice r) = 0)) as [Hinit|Hinit]; last first.
  { rewrite add_test_no_case by auto. done. }
  destruct (decide (map_insert_ret (reg_choice r) = 0)) as [Hins|Hins].
  - rewrite add_test_new by done. intros [= <-].
    apply no_leak_linked; [done|apply (fresh_hook_free s)|done].
  - rewrite add_test_unresolved by done. by intros [= <-].
Qed.

Lemma tcase_cleanup_no_leak th s s' :
  wf s → no_leak s → _tcase_cleanup th s = Ret tt s' → no_leak s'.
Proof.
  intros Hwf Hno Hrun. destruct (tc_lock s) eqn:Hlock.
  { by rewrite (proj1 (held_lock_blocks s Hlock)) in Hrun. }
  destruct (tcase_cleanup_result th s Hwf Hlock)
    as (s1 & E & Hcs & Htl & Hk & Hmap & _).
  rewrite E in Hrun. injection Hrun as <-.
  intros f h. rewrite Hk. case_decide as Hin; [done|]. intros Hh.
  rewrite (handle_list_without (handle_list s th) s) by done.
  apply elem_of_without. split; [done|]. by apply Hno.
Qed.

Lemma ktf_cleanup_no_leak s v s' :
  wf s → no_leak s → ktf_cleanup s = Ret v s' → no_leak s'.
Proof.
  intros Hwf Hno Hrun. destruct (tc_lock s) eqn:Hlock.
  { by rewrite (proj2 (proj2 (held_lock_blocks s Hlock))) in Hrun. }
  destruct (ktf_cleanup_spec s Hwf Hlock)
    as [[_ E]|[_ (s1 & E & _ & _ & Hhk & Htl & _)]];
    rewrite E in Hrun; injection Hrun as <- <-.
  - done.
  - intros f h. unfold handle_list. rewrite Hhk, Htl. apply Hno.
Qed.

Lemma reachable_no_leak s : reachable s → no_leak s.
Proof.
  induction 1 as [|r s s' Hs IH Hrun|th s s' Hs IH Hrun
                 |v s s' Hs IH Hrun|c skb v s s' Hs IH Hrun].
  - intros f h. cbn. by rewrite lookup_empty.
  - apply (register_no_leak r s); [by apply reachable_wf|done..].
  - apply (tcase_cleanup_no_leak th s); [by apply reachable_wf|done..].
  - apply (ktf_cleanup_no_leak s v); [by apply reachable_wf|done..].
  - apply report_state in Hrun as (n & _ & ->). done.
Qed.

Lemma reachable_register_all rs : ∀ s s',
  reachable s → register_all rs s = Ret tt s' → reachable s'.
Proof.
  induction rs as [|r rs IH]; intros s s' Hs; cbn [register_all]; kunfold.
  - by intros [= <-].
  - destruct (register r s) as [[] s1| |] eqn:E; [|done..].
    apply IH. by apply (reach_register r s).
Qed.

Lemma reachable_busy_state : reachable busy_state.
Proof.
  apply (reachable_register_all [reg_ping; reg_pong; reg_pang; reg_echo]
           kstate_init); [constructor|].
  vm_compute. reflexivity.
Qed.

(** X10: the module never loses a hook: in every state it can be in, a
    teardown that returns has freed every hook of its owner, so that no
    live hook points to the owner any more, and it has freed no other
    hook. *)
Theorem teardown_frees_owner_hooks th s s' :
  reachable s → _tcase_cleanup th s = Ret tt s' →
  ∀ f h, hooks s !! f = Some h →
    (fh_handle h = th → hooks s' !! f = None) ∧
    (fh_handle h ≠ th → hooks s' !! f = Some h).
Proof.
  intros Hs Hrun f h Hh.
  destruct (reachable_wf s Hs) as [Hwf _].
  pose proof (reachable_no_leak s Hs f h Hh) as Hon.
  destruct (tc_lock s) eqn:Hlock.
  { by rewrite (proj1 (held_lock_blocks s Hlock)) in Hrun. }
  destruct (tcase_cleanup_result th s Hwf Hlock)
    as (s1 & E & _ & _ & Hk & _).
  rewrite E in Hrun. injection Hrun as <-. rewrite Hk. split.
  - intros Hth. rewrite Hth in Hon. by rewrite decide_True.
  - intros Hth. rewrite decide_False; [done|]. intros Hin.
    destruct (wf_hlist s Hwf th f Hin) as (h' & ? & ?). congruence.
Qed.

Lemma teardown_frees_owner_hooks_witness :
  hooks (state_after (_tcase_cleanup 1%nat) busy_state) !! 1%positive = None ∧
  hooks (state_after (_tcase_cleanup 1%nat) busy_state) !! 3%positive
  = Some (hook_of reg_pang).
Proof.
  assert (Hrun : _tcase_cleanup 1%nat busy_state
                 = Ret tt (state_after (_tcase_cleanup 1%nat) busy_state))
    by (vm_compute; reflexivity).
  split.
  - apply (teardown_frees_owner_hooks 1%nat busy_state _ reachable_busy_state
             Hrun 1%positive (hook_of reg_ping)).
    + vm_compute; reflexivity.
    + reflexivity.
  - apply (teardown_frees_owner_hooks 1%nat busy_state _ reachable_busy_state
             Hrun 3%positive (hook_of reg_pang)).
    + vm_compute; reflexivity.
    + vm_compute; discriminate.
Defined.

(** X11: in every state the module can be in, the two lists a hook is
    threaded on agree: a hook is on the list of a case exactly when it is
    on the list of an owner, that owner is the handle the hook holds, and
    the hook is live; and the live cases are the registered ones, each
    under its name. *)
Theorem reachable_dual_lists s :
  reachable s →
  (∀ f, (∃ a c, cases s !! a = Some c ∧ f ∈ fun_list c) ↔
        (∃ th, f ∈ handle_list s th)) ∧
  (∀ f th, f ∈ handle_list s th ↔
           ∃ h, hooks s !! f = Some h ∧ fh_handle h = th) ∧
  (∀ a c, cases s !! a = Some c → test_cases s !! kmap_name c = Some a) ∧
  (∀ n a, test_cases s !! n = Some a →
          ∃ c, cases s !! a = Some c ∧ kmap_name c = n).
Proof.
  intros Hs. destruct (reachable_wf s Hs) as [Hwf _].
  pose proof (reachable_no_leak s Hs) as Hno. split_and!.
  - intros f. split.
    + intros (a & c & Hc & Hin).
      destruct (wf_flist s Hwf a c f Hc Hin) as (h & _ & Hon). eauto.
    + intros [th Hin]. by apply (wf_both s Hwf th).
  - intros f th. split.
    + apply (wf_hlist s Hwf).
    + intros (h & Hh & <-). by apply Hno.
  - apply (wf_reg s Hwf).
  - intros n a Hn. destruct (wf_map s Hwf n a Hn) as [c Hc].
    exists c. split; [done|]. by apply (wf_name s Hwf n a).
Qed.

Lemma reachable_dual_lists_witness :
  (∀ f, (∃ a c, cases busy_state !! a = Some c ∧ f ∈ fun_list c) ↔
        (∃ th, f ∈ handle_list busy_state th)) ∧
  (∀ f th, f ∈ handle_list busy_state th ↔
           ∃ h, hooks busy_state !! f = Some h ∧ fh_handle h = th) ∧
  (∀ a c, cases busy_state !! a = Some c →
          test_cases busy_state !! kmap_name c = Some a) ∧
  (∀ n a, test_cases busy_state !! n = Some a →
          ∃ c, cases busy_state !! a = Some c ∧ kmap_name c = n).
Proof. apply (reachable_dual_lists busy_state), reachable_busy_state. Defined.

(** ** Shutdown, once more *)

(** X12: shutdown goes through once every owner is torn down, and only
    then: with no hook on the list of any owner, [ktf_cleanup] returns 0,
    leaves no case and releases the lock; and when it returns [-EBUSY],
    some owner still has a hook on its list. *)
Theorem shutdown_needs_teardown s :
  wf s → tc_lock s = false →
  ((∀ th, handle_list s th = []) →
   ∃ s', ktf_cleanup s = Ret 0 s' ∧ ktf_case_count s' = 0%nat ∧
         tc_lock s' = false) ∧
  (∀ s', ktf_cleanup s = Ret (- EBUSY) s' → ∃ th f, f ∈ handle_list s th).
Proof.
  intros Hwf Hlock.
  destruct (ktf_cleanup_spec s Hwf Hlock)
    as [[(n & a & c & Hn & Hc & Hne) E]|[_ (s1 & E & Hmap & _ & _ & _ & _ & Hl)]].
  - destruct (fun_list c) as [|f fl] eqn:Hfun; [done|].
    destruct (wf_flist s Hwf a c f Hc) as (h & _ & Hon).
    { rewrite Hfun. apply list_elem_of_here. }
    split.
    + intros Hnone. rewrite Hnone in Hon. by apply elem_of_nil in Hon.
    + intros _ _. eauto.
  - split.
    + intros _. exists s1. split; [done|]. split; [|done].
      unfold ktf_case_count, ktf_map_size. rewrite Hmap. apply map_size_empty.
    + intros s'. rewrite E. by intros [= ].
Qed.

Lemma wf_torn_down_state : wf torn_down_state.
Proof.
  apply (tcase_cleanup_inv 1%nat one_hook_state); [apply wf_one_hook_state|].
  vm_compute. reflexivity.
Qed.

Lemma shutdown_needs_teardown_witness :
  ∃ s', ktf_cleanup torn_down_state = Ret 0 s' ∧ ktf_case_count s' = 0%nat ∧
        tc_lock s' = false.
Proof.
  apply (shutdown_needs_teardown torn_down_state).
  - apply wf_torn_down_state.
  - vm_compute; reflexivity.
  - intros th. unfold handle_list.
    change (test_list torn_down_state)
      with ({[1%nat := []]} : gmap nat (list positive)).
    rewrite lookup_singleton. by case_decide.
Defined.

(** X13: a shutdown that found a hook cannot be tried again: [ktf_cleanup]
    returned [-EBUSY] with the lock held, so a second [ktf_cleanup] and the
    teardown of any owner wait for the lock for ever. *)
Theorem busy_shutdown_blocks_retry s :
  wf s → tc_lock s = false → stranded s →
  (ktf_cleanup;; ktf_cleanup) s = Hang ∧
  ∀ th, (ktf_cleanup;; _tcase_cleanup th) s = Hang.
Proof.
  intros Hwf Hlock Hstr.
  destruct (ktf_cleanup_spec s Hwf Hlock) as [[_ E]|[Hall _]]; last first.
  { by apply stranded_or_empty in Hall. }
  destruct (held_lock_blocks (set_tc_lock true s)) as (Htd & _ & Hcl); [done|].
  split; [|intros th]; unfold mbind, K_bind; rewrite E; [apply Hcl|apply Htd].
Qed.

Lemma busy_shutdown_blocks_retry_witness :
  (ktf_cleanup;; ktf_cleanup) busy_state = Hang ∧
  ∀ th, (ktf_cleanup;; _tcase_cleanup th) busy_state = Hang.
Proof.
  apply (busy_shutdown_blocks_retry busy_state).
  - apply wf_busy_state.
  - vm_compute; reflexivity.
  - exists "basic", 1%positive.
    eexists. split; [vm_compute; reflexivity|].
    split; [vm_compute; reflexivity|]. discriminate.
Defined.

(** ** A whole session *)

(** X14: a passing report costs nothing but a count: a run of passing
    calls returns whatever the allocator would do, leaves the message and
    the registry as they were, and moves the counter by the number of
    calls, modulo [2 ^ 32]. *)
Theorem passing_reports_only_count calls skb s :
  Forall (λ c, rc_result c ≠ 0) calls →
  0 ≤ assert_cnt s < 2 ^ 32 →
  ∃ s', run_reports calls skb s = Ret skb s' ∧
    assert_cnt s' = (assert_cnt s + Z.of_nat (length calls)) mod 2 ^ 32 ∧
    cases s' = cases s ∧ hooks s' = hooks s ∧ test_cases s' = test_cases s ∧
    test_list s' = test_list s ∧ tc_lock s' = tc_lock s.
Proof.
  intros Hpass Hcnt. eexists. split; [by apply run_reports_pass|]. done.
Qed.

Lemma passing_reports_only_count_witness :
  ∃ s', run_reports (replicate 3 pass_call) [] busy_state = Ret [] s' ∧
    assert_cnt s'
    = (assert_cnt busy_state + Z.of_nat (length (replicate 3 pass_call)))
      mod 2 ^ 32 ∧
    cases s' = cases busy_state ∧ hooks s' = hooks busy_state ∧
    test_cases s' = test_cases busy_state ∧
    test_list s' = test_list busy_state ∧ tc_lock s' = tc_lock busy_state.
Proof.
  apply (passing_reports_only_count (replicate 3 pass_call) [] busy_state).
  - repeat constructor; vm_compute; discriminate.
  - vm_compute. split; [discriminate|reflexivity].
Defined.

Lemma ktf_cleanup_torn_down s :
  wf s → tc_lock s = false → (∀ th, handle_list s th = []) →
  ∃ s', ktf_cleanup s = Ret 0 s' ∧ test_cases s' = ∅ ∧ cases s' = ∅ ∧
        hooks s' = hooks s ∧ tc_lock s' = false.
Proof.
  intros Hwf Hlock Hnone.
  destruct (ktf_cleanup_spec s Hwf Hlock)
    as [[(n & a & c & Hn & Hc & Hne) _]|[_ (s1 & E & Hmap & Hcs & Hhk & _ & _ & Hl)]].
  - destruct (fun_list c) as [|f fl] eqn:Hfun; [done|].
    destruct (wf_flist s Hwf a c f Hc) as (h & _ & Hon).
    { rewrite Hfun. apply list_elem_of_here. }
    rewrite Hnone in Hon. by apply elem_of_nil in Hon.
  - by exists s1.
Qed.

Lemma teardown_all_spec ths : ∀ s,
  wf s → tc_lock s = false →
  ∃ s', teardown_all ths s = Ret tt s' ∧ wf s' ∧ tc_lock s' = false ∧
    test_cases s' = test_cases s ∧
    (∀ th, th ∈ ths → handle_list s' th = []) ∧
    (∀ th, handle_list s th = [] → handle_list s' th = []).
Proof.
  induction ths as [|th0 ths IH]; intros s Hwf Hlock.
  - exists s. split_and!; try done. by intros th ?%elem_of_nil.
  - destruct (tcase_cleanup_result th0 s Hwf Hlock)
      as (s1 & E & Hcs & Htl & Hk & Hmap & Hlock1 & _).
    assert (Hwf1 : wf s1) by (by apply (wf_without (handle_list s th0) s)).
    assert (Hlists : ∀ th, handle_list s1 th
                           = without (handle_list s th0) (handle_list s th))
      by (intros th; by apply handle_list_without).
    destruct (IH s1 Hwf1 Hlock1) as (s' & E' & Hwf' & Hlock' & Hmap' & Hin & Hkeep).
    exists s'. split_and!; try done.
    + cbn [teardown_all]. unfold mbind, K_bind. by rewrite E.
    + by rewrite Hmap'.
    + intros th [->|Hth]%elem_of_cons; [|by apply Hin].
      apply Hkeep. rewrite Hlists. apply without_self.
    + intros th Hnil. apply Hkeep. by rewrite Hlists, Hnil.
Qed.

(** X15: a session can always be closed: from a state with the lock free,
    the teardown of every owner that has a hook, in any order and possibly
    with others, followed by [ktf_cleanup], returns 0 with no case and no
    hook left; the case count is zero and the lock free. *)
Theorem teardown_all_then_shutdown ths s :
  reachable s → tc_lock s = false →
  (∀ th, handle_list s th ≠ [] → th ∈ ths) →
  ∃ s', (teardown_all ths;; ktf_cleanup) s = Ret 0 s' ∧
    ktf_case_count s' = 0%nat ∧ cases s' = ∅ ∧ hooks s' = ∅ ∧
    tc_lock s' = false.
Proof.
  intros Hs Hlock Hcover. destruct (reachable_wf s Hs) as [Hwf _].
  pose proof (reachable_no_leak s Hs) as Hno.
  destruct (teardown_all_spec ths s Hwf Hlock)
    as (s1 & E & Hwf1 & Hlock1 & Hmap & Hin & Hkeep).
  assert (Hnone : ∀ th, handle_list s1 th = []).
  { intros th. destruct (handle_list s th) as [|f fl] eqn:Hl; [by apply Hkeep|].
    apply Hin, Hcover. by rewrite Hl. }
  destruct (ktf_cleanup_torn_down s1 Hwf1 Hlock1 Hnone)
    as (s' & E' & Hmap' & Hcs & Hhk & Hlock').
  assert (Hs1 : reachable s1).
  { clear -Hs E. revert s Hs E.
    induction ths as [|th ths IH]; intros s Hs; cbn [teardown_all]; kunfold.
    - by intros [= <-].
    - destruct (_tcase_cleanup th s) as [[] s2| |] eqn:E2; [|done..].
      apply IH. by apply (reach_teardown th s). }
  exists s'. split_and!; try done.
  - unfold mbind, K_bind. by rewrite E.
  - unfold ktf_case_count, ktf_map_size. rewrite Hmap'. apply map_size_empty.
  - rewrite Hhk. apply map_eq. intros f. rewrite lookup_empty.
    destruct (hooks s1 !! f) as [h|] eqn:Hh; [|done].
    apply (reachable_no_leak s1 Hs1) in Hh. rewrite Hnone in Hh.
    by apply elem_of_nil in Hh.
Qed.

Lemma teardown_all_then_shutdown_witness :
  ∃ s', (teardown_all [2%nat; 1%nat];; ktf_cleanup) busy_state = Ret 0 s' ∧
    ktf_case_count s' = 0%nat ∧ cases s' = ∅ ∧ hooks s' = ∅ ∧
    tc_lock s' = false.
Proof.
  apply (teardown_all_then_shutdown [2%nat; 1%nat] busy_state).
  - apply reachable_busy_state.
  - vm_compute; reflexivity.
  - intros th Hth. unfold handle_list in Hth.
    change (test_list busy_state)
      with (<[2%nat := [3%positive]]>
              ({[1%nat := [4%positive; 2%positive; 1%positive]]}
               : gmap nat (list positive))) in Hth.
    rewrite lookup_insert in Hth. case_decide as H2; [subst; set_solver|].
    rewrite lookup_singleton in Hth. case_decide as H1; [subst; set_solver|].
    done.
Defined.

(** * Where the busy shutdown and the failing report fall short *)

(** C3: a shutdown that finds a hook does change the registry: it returns
    [-EBUSY] from inside the loop, after [mutex_lock] and without
    [mutex_unlock], so the state it leaves is not the state it was called
    in, the lock is held, and the shutdown tried again in that state does
    not return [-EBUSY] but waits for the lock for ever. *)
Theorem ktf_cleanup_busy_changes_state s :
  wf s → tc_lock s = false → stranded s →
  ∃ s', ktf_cleanup s = Ret (- EBUSY) s' ∧
    s' ≠ s ∧ tc_lock s' = true ∧ stranded s' ∧ ktf_cleanup s' = Hang.
Proof.
  intros Hwf Hlock Hstr.
  destruct (ktf_cleanup_spec s Hwf Hlock) as [[_ E]|[Hall _]]; last first.
  { by apply stranded_or_empty in Hall. }
  exists (set_tc_lock true s). split_and!.
  - done.
  - intros Heq. apply (f_equal tc_lock) in Heq. ksimpl. congruence.
  - done.
  - done.
  - by apply held_lock_blocks.
Qed.

Lemma ktf_cleanup_busy_changes_state_witness :
  ∃ s', ktf_cleanup one_hook_state = Ret (- EBUSY) s' ∧
    s' ≠ one_hook_state ∧ tc_lock s' = true ∧ stranded s' ∧
    ktf_cleanup s' = Hang.
Proof.
  apply (ktf_cleanup_busy_changes_state one_hook_state).
  - apply wf_one_hook_state.
  - vm_compute; reflexivity.
  - exists "basic", 1%positive.
    eexists. split; [vm_compute; reflexivity|].
    split; [vm_compute; reflexivity|]. discriminate.
Defined.

(** C5: on its failing branch [_fail_unless] does not always return its
    [result]: when the [kmalloc] of the message buffer fails, or when the
    text is as long as the buffer or longer, the call returns nothing at
    all, it crashes before [return result]. *)
Theorem fail_unless_failing_branch_no_return found skb file line text s :
  found = None ∨ (MAX_PRINTF ≤ length text)%nat →
  (∀ v s', _fail_unless found skb 0 file line text s ≠ Ret v s') ∧
  ∃ e, _fail_unless found skb 0 file line text s = Crash e.
Proof.
  intros Hbad.
  assert (Hcrash : ∃ e, _fail_unless found skb 0 file line text s = Crash e).
  { destruct found as [g|].
    - destruct Hbad as [?|Hlen]; [done|].
      exists OutOfBounds. by apply fail_unless_overrun.
    - exists NullDeref. apply fail_unless_no_buffer. }
  split; [|done]. destruct Hcrash as [e ->]. done.
Qed.

Lemma fail_unless_failing_branch_no_return_witness :
  (∀ v s', _fail_unless None [] 0 (list_ascii_of_string "t.c") 42
             (list_ascii_of_string "timeout") kstate_init ≠ Ret v s') ∧
  ∃ e, _fail_unless None [] 0 (list_ascii_of_string "t.c") 42
         (list_ascii_of_string "timeout") kstate_init = Crash e.
Proof.
  apply (fail_unless_failing_branch_no_return None [] (list_ascii_of_string "t.c")
           42 (list_ascii_of_string "timeout") kstate_init).
  left. reflexivity.
Defined.
